(** * Video export pipeline of the storyboard editor (VideoEditor.tsx)

    A shallow embedding of the client-side export code: the greedy
    subtitle wrapper [drawWrappedText], the cover-fit and subtitle
    geometry of the per-shot compositor, the export run
    [handleExportVideo] with its recorder session, and the preview
    playback clock.

    Conventions of the embedding.
    - A JavaScript string is its sequence of UTF-16 code units
      ([text.split('')] yields exactly these).
    - JavaScript numbers are modelled as exact rationals ([Q]); integer
      valued ones (indices, pixel sizes, milliseconds) sit in [Z].
    - Host objects (canvas context, [Image], [MediaRecorder], timers) are
      represented by the calls made on them, collected in a trace, and by
      an environment record that supplies what the host answers. *)

From Stdlib Require Import ZArith QArith Qround List Bool Lia Lqa Arith.
Import ListNotations.

Local Open Scope Q_scope.

(* ------------------------------------------------------------------ *)
(** ** JavaScript strings *)

Module JsString.

(** One UTF-16 code unit. *)
Definition code_unit := N.

Definition jsstring := list code_unit.

(** [0xD800 .. 0xDBFF]: first half of a surrogate pair. *)
Definition is_high_surrogate (c : code_unit) : bool :=
  ((55296 <=? c) && (c <=? 56319))%N.

(** [0xDC00 .. 0xDFFF]: second half of a surrogate pair. *)
Definition is_low_surrogate (c : code_unit) : bool :=
  ((56320 <=? c) && (c <=? 57343))%N.

(** Truthiness of an optional string: [undefined] and [''] are falsy. *)
Definition truthy (s : option jsstring) : bool :=
  match s with
  | Some (_ :: _) => true
  | _ => false
  end.

End JsString.
Import JsString.

(** [a > b] on numbers. *)
Definition Qgtb (a b : Q) : bool := negb (Qle_bool a b).

(* ------------------------------------------------------------------ *)
(** ** The greedy wrapper *)

Module TextWrapper.

Section Wrap.

(** [ctx.measureText(s).width] at the font currently set. *)
Variable measureText : jsstring -> Q.
Variable maxWidth : Q.

(** The [for] loop of [drawWrappedText]: [n] is the loop index,
    [line] and [lines] the two mutable locals. *)
Fixpoint wrapLoop (chars : list code_unit) (n : nat)
         (line : jsstring) (lines : list jsstring)
  : jsstring * list jsstring :=
  match chars with
  | [] => (line, lines)
  | c :: rest =>
      let testLine := line ++ [c] in
      if Qgtb (measureText testLine) maxWidth && (0 <? n)%nat
      then wrapLoop rest (S n) [c] (lines ++ [line])
      else wrapLoop rest (S n) testLine lines
  end.

(** The array [lines] after the final [lines.push(line)]. *)
Definition wrapLines (text : jsstring) : list jsstring :=
  let '(line, lines) := wrapLoop text 0 [] [] in
  lines ++ [line].

(** The measuring loop written inline in the export path; it keeps
    only the counter. *)
Fixpoint countLoop (chars : list code_unit) (n : nat)
         (line : jsstring) (lineCount : Z) : jsstring * Z :=
  match chars with
  | [] => (line, lineCount)
  | c :: rest =>
      let testLine := line ++ [c] in
      if Qgtb (measureText testLine) maxWidth && (0 <? n)%nat
      then countLoop rest (S n) [c] (lineCount + 1)%Z
      else countLoop rest (S n) testLine lineCount
  end.

Definition countLines (text : jsstring) : Z :=
  snd (countLoop text 0 [] 1%Z).

(** A line is acceptable when it fits the budget or is one code unit
    that alone is wider than the budget. *)
Definition fits_or_single (l : jsstring) : Prop :=
  measureText l <= maxWidth
  \/ exists c, l = [c] /\ maxWidth < measureText [c].

(** Two consecutive lines cut a surrogate pair in the middle. *)
Definition cuts_pair (l1 l2 : jsstring) : bool :=
  match rev l1, l2 with
  | h :: _, lo :: _ => is_high_surrogate h && is_low_surrogate lo
  | _, _ => false
  end.

Fixpoint splits_character (ls : list jsstring) : bool :=
  match ls with
  | l1 :: ((l2 :: _) as tl) => cuts_pair l1 l2 || splits_character tl
  | _ => false
  end.

(** Loop invariant for the width bound: before the first code unit
    the line is empty; afterwards it fits or is a single unit. *)
Definition line_ok (n : nat) (line : jsstring) : Prop :=
  (n = 0%nat /\ line = [])
  \/ ((0 < n)%nat /\ (measureText line <= maxWidth \/ exists c, line = [c])).

(** One character (code point): a single code unit or a surrogate
    pair. *)
Definition single_character (l : jsstring) : Prop :=
  (exists c, l = [c])
  \/ (exists h lo, l = [h; lo]
                   /\ is_high_surrogate h = true
                   /\ is_low_surrogate lo = true).

(** The width bound with characters as the unbreakable units: every
    line fits or is one over-wide character, and no character is
    cut. *)
Definition bounded_unsplit (text : jsstring) : Prop :=
  Forall (fun l => measureText l <= maxWidth
                   \/ (single_character l /\ maxWidth < measureText l))
         (wrapLines text)
  /\ splits_character (wrapLines text) = false.

End Wrap.

(** A sample metric: 10 px per code unit, 20 px for a complete
    surrogate pair (a wide glyph), 10 px for a lone surrogate (the
    replacement glyph). *)
Fixpoint glyphWidth (s : jsstring) : Q :=
  match s with
  | [] => 0
  | c :: tl =>
      match tl with
      | lo :: rest =>
          if is_high_surrogate c && is_low_surrogate lo
          then 20 + glyphWidth rest
          else 10 + glyphWidth tl
      | [] => 10
      end
  end.

End TextWrapper.

(* ------------------------------------------------------------------ *)
(** ** Canvas calls and per-shot compositing *)

Module Canvas.

(** Values assigned to [fillStyle] / [strokeStyle].  A gradient is the
    object made by [createLinearGradient(x0, y0, x1, y1)] with its
    colour stops (offset, alpha of black). *)
Inductive style :=
| Black
| Grey333
| White
| LinearGradient (x0 y0 x1 y1 : Q) (stops : list (Q * Q)).

(** The [Image] element after its load settled. *)
Record HostImage := {
  naturalWidth : Z;
  imgWidth : Z;
  imgHeight : Z
}.

Inductive op :=
| SetFillStyle (s : style)
| FillRect (x y w h : Q)
| DrawImage (img : HostImage) (dx dy dw dh : Q)
| SetFont (px : Z)                 (* `bold ${px}px sans-serif` *)
| SetFontMissing                   (* "bold 60px sans-serif" *)
| SetTextAlignCenter
| SetTextBaselineTop
| SetStrokeStyle (s : style)
| SetLineWidth (w : Q)
| StrokeText (s : jsstring) (x y : Q)
| FillText (s : jsstring) (x y : Q)
| FillTextMissing (x y : Q).       (* fillText("Missing Image", x, y) *)

End Canvas.
Import Canvas.

Module Compositor.

Record CoverFit := {
  drawW : Q;
  drawH : Q;
  offsetX : Q;
  offsetY : Q
}.

(** The object-cover branch of the export loop.  [x / 0] is [0] in
    [Q], so the embedding follows the source only for non-zero
    divisors ([img.height], [height], [imgRatio]). *)
Definition coverFit (img : HostImage) (width height : Z) : CoverFit :=
  let imgRatio := inject_Z (imgWidth img) / inject_Z (imgHeight img) in
  let canvasRatio := inject_Z width / inject_Z height in
  if Qgtb imgRatio canvasRatio then
    let drawH := inject_Z height in
    let drawW := inject_Z height * imgRatio in
    {| drawW := drawW; drawH := drawH;
       offsetX := (inject_Z width - drawW) / 2; offsetY := 0 |}
  else
    let drawW := inject_Z width in
    let drawH := inject_Z width / imgRatio in
    {| drawW := drawW; drawH := drawH;
       offsetX := 0; offsetY := (inject_Z height - drawH) / 2 |}.

(** [lines.forEach((l, idx) => { strokeText; fillText })]. *)
Fixpoint drawLines (ls : list jsstring) (idx : Z) (x y lineHeight : Q)
  : list op :=
  match ls with
  | [] => []
  | l :: rest =>
      StrokeText l x (y + inject_Z idx * lineHeight)
      :: FillText l x (y + inject_Z idx * lineHeight)
      :: drawLines rest (idx + 1)%Z x y lineHeight
  end.

Definition drawWrappedText (measureText : jsstring -> Q)
           (text : jsstring) (x y maxWidth lineHeight : Q) : list op :=
  drawLines (TextWrapper.wrapLines measureText maxWidth text) 0 x y lineHeight.

Section Frame.

(** [measure px s]: width of [s] in `bold ${px}px sans-serif`. *)
Variable measure : Z -> jsstring -> Q.
Variables width height : Z.

Definition fontSize : Z := Qfloor (inject_Z height * 0.04).
Definition lineHeight : Q := inject_Z fontSize * 1.35.
Definition maxWidth : Q := inject_Z width * 0.85.
Definition textX : Q := inject_Z width / 2.

(** [lineCount] of the inline loop; [tempCtx] is the same context
    object as [ctx], with the same font. *)
Definition lineCount (dialogue : jsstring) : Z :=
  TextWrapper.countLines (measure fontSize) maxWidth dialogue.

Definition startY (dialogue : jsstring) : Q :=
  let totalTextH := inject_Z (lineCount dialogue) * lineHeight in
  inject_Z height - (inject_Z height * 0.08) - totalTextH.

(** Step 3 of the loop body, taken when [shot.dialogue] is truthy. *)
Definition drawSubtitles (dialogue : jsstring) : list op :=
  let strapHeight := inject_Z height * 0.25 in
  [ SetFillStyle
      (LinearGradient 0 (inject_Z height - strapHeight) 0 (inject_Z height)
         [(0, 0); (0.3, 0.6); (1, 0.9)]);
    FillRect 0 (inject_Z height - strapHeight) (inject_Z width) strapHeight;
    SetFont fontSize;
    SetFillStyle White;
    SetTextAlignCenter;
    SetTextBaselineTop;
    SetStrokeStyle Black;
    SetLineWidth 3;
    SetFont fontSize ]
  ++ drawWrappedText (measure fontSize) dialogue textX (startY dialogue)
       maxWidth lineHeight.

(** Step 2: background, then the image or the placeholder. *)
Definition drawPicture (img : HostImage) : list op :=
  [ SetFillStyle Black;
    FillRect 0 0 (inject_Z width) (inject_Z height) ]
  ++ (if (naturalWidth img >? 0)%Z then
        let f := coverFit img width height in
        [ DrawImage img (offsetX f) (offsetY f) (drawW f) (drawH f) ]
      else
        [ SetFillStyle Grey333;
          FillRect 0 0 (inject_Z width) (inject_Z height);
          SetFillStyle White;
          SetFontMissing;
          SetTextAlignCenter;
          FillTextMissing (inject_Z width / 2) (inject_Z height / 2) ]).

(** Steps 2 and 3 for one shot. *)
Definition compositeFrame (img : HostImage) (dialogue : option jsstring)
  : list op :=
  drawPicture img
  ++ match dialogue with
     | Some d => if truthy dialogue then drawSubtitles d else []
     | None => []
     end.

(** The [y] coordinates at which text is filled, in drawing order. *)
Fixpoint filledLines (ops : list op) : list (jsstring * Q) :=
  match ops with
  | [] => []
  | FillText s _ y :: rest => (s, y) :: filledLines rest
  | _ :: rest => filledLines rest
  end.

End Frame.

End Compositor.

(* ------------------------------------------------------------------ *)
(** ** Shots and the application's shot list *)

Module Shots.

Inductive AspectRatio := SQUARE | PORTRAIT | LANDSCAPE | CINEMATIC | CLASSIC.

Record Shot := {
  id : jsstring;
  sceneId : option jsstring;
  originalScriptSegment : jsstring;
  dialogue : option jsstring;
  visualAction : jsstring;
  cameraAngle : jsstring;
  img2vidPrompt : jsstring;
  imageUrl : option jsstring;
  videoUrl : option jsstring;
  isLoading : bool;
  isError : bool
}.

(** Array objects live in a heap addressed by allocation order; the
    application state [shots] is a cell holding the address of the
    current array.  The [storyboard] prop seen by a render, and by
    every closure made in that render, is such an address. *)
Definition loc := nat.

Record Store := {
  heap : list (list Shot);
  shotsCell : loc
}.

Definition readArray (st : Store) (l : loc) : list Shot :=
  nth l (heap st) [].

(** [setShots(prev => f(prev))] and [setShots(value)] (a constant
    [f]): every update in App.tsx builds a new array ([prev.map(...)],
    a literal) and stores its address; no array is written in place. *)
Definition setShots (f : list Shot -> list Shot) (st : Store) : Store :=
  {| heap := heap st ++ [f (readArray st (shotsCell st))];
     shotsCell := length (heap st) |}.

Definition applyUpdates (fs : list (list Shot -> list Shot)) (st : Store)
  : Store :=
  fold_left (fun s f => setShots f s) fs st.

End Shots.
Import Shots.

(* ------------------------------------------------------------------ *)
(** ** The export run *)

Module ExportPipeline.

(** What [img.src] is set to. *)
Inductive ImageSrc :=
| ShotUrl (u : jsstring)
| PlaceholderUrl (w h : Z).

(** How the awaited load promise was resolved. *)
Inductive LoadResult :=
| Loaded (img : HostImage)         (* [onload] *)
| LoadFailed.                      (* [onerror] *)

Inductive event :=
| SetIsExporting (b : bool)
| SetExportProgress (p : Z)
| SetIsPlaying (b : bool)
| CreateCanvas (w h : Z)
| CaptureStream (fps : Z)
| NewRecorder (vp9 : bool) (videoBitsPerSecond : Z)
| RecorderStart
| RecorderStop
| ImageRequest (i : nat) (src : ImageSrc)
| ConsoleWarn (i : nat)
| CanvasCall (o : op)
| Hold (ms : Z)
| Download (timestamp : Z) (blob : list N)
| ConsoleError
| Alert.

(** Answers of the browser during one run. *)
Record Host := {
  contextAvailable : bool;           (* [getContext('2d')] is not null *)
  vp9Supported : bool;               (* [MediaRecorder.isTypeSupported] *)
  recorderAvailable : bool;          (* constructing and starting do not raise *)
  decode : nat -> ImageSrc -> LoadResult;
  measure : Z -> jsstring -> Q;
  canvasFault : nat -> bool;         (* a canvas call raises while shot [i] is drawn *)
  encoded : list (list N);           (* chunks passed to [ondataavailable] *)
  stopTime : Z;                      (* [Date.now()] inside [onstop] *)
  updates : nat -> list (list Shot -> list Shot)
                                     (* [setShots] calls made by the
                                        application while iteration [i]
                                        is suspended *)
}.

(** Computations that emit events and may raise; the loop carries fuel. *)
Inductive outcome (A : Type) :=
| Returned (a : A)
| Thrown
| OutOfFuel.
Arguments Returned {A} a.
Arguments Thrown {A}.
Arguments OutOfFuel {A}.

Definition Run (A : Type) : Type := list event * outcome A.

Definition ret {A} (a : A) : Run A := ([], Returned a).
Definition throw {A} : Run A := ([], Thrown).
Definition emit (es : list event) : Run unit := (es, Returned tt).

Definition bind {A B} (m : Run A) (k : A -> Run B) : Run B :=
  match m with
  | (tr, Returned a) => let '(tr', r) := k a in (tr ++ tr', r)
  | (tr, Thrown) => (tr, Thrown)
  | (tr, OutOfFuel) => (tr, OutOfFuel)
  end.

Notation "x <- m ;; k" := (bind m (fun x => k))
  (at level 61, m at next level, right associativity).
Notation "m ;;; k" := (bind m (fun _ => k))
  (at level 61, right associativity).

(** [Math.round]. *)
Definition js_round (q : Q) : Z := Qfloor (q + (1 # 2)).

Definition surface (a : AspectRatio) : Z * Z :=
  match a with
  | PORTRAIT => (1080, 1920)
  | SQUARE => (1080, 1080)
  | CINEMATIC => (1920, 816)
  | CLASSIC => (1440, 1080)
  | LANDSCAPE => (1920, 1080)
  end%Z.

Definition RECORD_DURATION : Z := 3000.

Section Run.

Variable host : Host.
Variables width height : Z.

Definition imageSrc (shot : Shot) : ImageSrc :=
  match imageUrl shot with
  | Some u => if truthy (imageUrl shot) then ShotUrl u
              else PlaceholderUrl width height
  | None => PlaceholderUrl width height
  end.

(** Step 1: create the [Image], set [src], await load or error. *)
Definition loadImage (i : nat) (shot : Shot) : Run HostImage :=
  let src := imageSrc shot in
  emit [ImageRequest i src] ;;;
  match decode host i src with
  | Loaded img => ret img
  | LoadFailed =>
      emit [ConsoleWarn i] ;;;
      ret {| naturalWidth := 0; imgWidth := 0; imgHeight := 0 |}
  end.

(** Steps 2 and 3 on the shared context. *)
Definition composite (i : nat) (img : HostImage) (shot : Shot) : Run unit :=
  if canvasFault host i then throw
  else emit (map CanvasCall
               (Compositor.compositeFrame (measure host) width height
                  img (dialogue shot))).

(** One iteration of the loop body for [shot = storyboard[i]]. *)
Definition cycle (i : nat) (total : nat) (shot : Shot) : Run unit :=
  emit [SetExportProgress
          (js_round ((inject_Z (Z.of_nat i) / inject_Z (Z.of_nat total)) * 100))] ;;;
  img <- loadImage i shot ;;
  composite i img shot ;;;
  emit [Hold RECORD_DURATION].

(** [for (let i = 0; i < storyboard.length; i++)]: [sb] is the array
    captured by the handler; [st] is the store as it stands when the
    iteration begins. *)
Fixpoint exportLoop (fuel : nat) (sb : loc) (i : nat) (st : Store)
  : Run Store :=
  match fuel with
  | O => ([], OutOfFuel)
  | S fuel' =>
      let storyboard := readArray st sb in
      if (i <? length storyboard)%nat then
        match nth_error storyboard i with
        | Some shot =>
            cycle i (length storyboard) shot ;;;
            exportLoop fuel' sb (S i) (applyUpdates (updates host i) st)
        | None => throw       (* reading a field of [undefined] *)
        end
      else ret st
  end.

(** [recorder.stop()], then the host delivers the data and fires
    [onstop]: chunks of positive size are kept, joined into the blob
    and saved; the export flags are cleared. *)
Definition stopRecorder : Run unit :=
  let chunks := filter (fun c => (0 <? length c)%nat) (encoded host) in
  emit [ RecorderStop;
         Download (stopTime host) (concat chunks);
         SetIsExporting false;
         SetExportProgress 0 ].

(** The [try] block. *)
Definition tryBlock (fuel : nat) (sb : loc) (st : Store) : Run Store :=
  emit [CreateCanvas width height] ;;;
  (if contextAvailable host then ret tt else throw) ;;;
  emit [CaptureStream 30] ;;;
  (if recorderAvailable host
   then emit [NewRecorder (vp9Supported host) 5000000; RecorderStart]
   else throw) ;;;
  st' <- exportLoop fuel sb 0 st ;;
  stopRecorder ;;;
  ret st'.

End Run.

Inductive status := Skipped | Completed | Aborted | Unfinished.

(** [handleExportVideo], called from a render in which [isExporting],
    [aspectRatio] and [storyboard] (the address [sb]) were bound. *)
Definition handleExportVideo (host : Host) (fuel : nat)
           (isExporting : bool) (aspectRatio : AspectRatio)
           (sb : loc) (st : Store) : list event * status :=
  if isExporting then ([], Skipped)
  else
    let '(width, height) := surface aspectRatio in
    let prologue :=
      [SetIsExporting true; SetExportProgress 0; SetIsPlaying false] in
    match tryBlock host width height fuel sb st with
    | (tr, Returned _) => (prologue ++ tr, Completed)
    | (tr, Thrown) =>
        (prologue ++ tr ++ [ConsoleError; SetIsExporting false; Alert],
         Aborted)
    | (tr, OutOfFuel) => (prologue ++ tr, Unfinished)
    end.

(** Observations on a trace. *)
Definition is_hold (e : event) : bool :=
  match e with Hold _ => true | _ => false end.
Definition is_stop (e : event) : bool :=
  match e with RecorderStop => true | _ => false end.
Definition is_start (e : event) : bool :=
  match e with RecorderStart => true | _ => false end.

(** The shots whose frames were requested, by index, in trace order. *)
Fixpoint requested (tr : list event) : list nat :=
  match tr with
  | [] => []
  | ImageRequest i _ :: rest => i :: requested rest
  | _ :: rest => requested rest
  end.

(** The loop body run over a fixed array, one iteration per
    element, starting at index [i]. *)
Fixpoint cycles (host : Host) (width height : Z) (i total : nat)
         (shots : list Shot) : Run unit :=
  match shots with
  | [] => ret tt
  | shot :: rest =>
      cycle host width height i total shot ;;;
      cycles host width height (S i) total rest
  end.

(** Forget the returned value. *)
Definition erase {A} (r : Run A) : Run unit :=
  (fst r,
   match snd r with
   | Returned _ => Returned tt
   | Thrown => Thrown
   | OutOfFuel => OutOfFuel
   end).

(** The same browser with an application that makes no [setShots]
    call during the run. *)
Definition quiet (host : Host) : Host :=
  {| contextAvailable := contextAvailable host;
     vp9Supported := vp9Supported host;
     recorderAvailable := recorderAvailable host;
     decode := decode host;
     measure := measure host;
     canvasFault := canvasFault host;
     encoded := encoded host;
     stopTime := stopTime host;
     updates := fun _ => [] |}.

(** The events of the iteration for each element of [shots], by
    index. *)
Definition cycleTraces (host : Host) (width height : Z)
           (shots : list Shot) : list (list event) :=
  map (fun p => fst (cycle host width height (fst p) (length shots) (snd p)))
      (combine (seq 0 (length shots)) shots).

Definition prologue : list event :=
  [SetIsExporting true; SetExportProgress 0; SetIsPlaying false].

Definition setupTrace (host : Host) (width height : Z) : list event :=
  [CreateCanvas width height; CaptureStream 30;
   NewRecorder (vp9Supported host) 5000000; RecorderStart].

Definition catchTrace : list event :=
  [ConsoleError; SetIsExporting false; Alert].

End ExportPipeline.

(* ------------------------------------------------------------------ *)
(** ** The preview playback clock *)

Module Playback.

Definition DURATION_PER_SHOT : Q := 4000.

(** The interval callback closes over the [currentIndex] and
    [storyboard.length] of the render whose effect armed it. *)
Record Timer := {
  capIndex : Z;
  capLength : Z
}.

Record State := {
  currentIndex : Z;
  isPlaying : bool;
  progress : Q;
  isExporting : bool;
  startTime : Q;                   (* [startTimeRef.current] *)
  interval : option Timer          (* the live interval, if any *)
}.

Definition withInterval (t : option Timer) (s : State) : State :=
  {| currentIndex := currentIndex s; isPlaying := isPlaying s;
     progress := progress s; isExporting := isExporting s;
     startTime := startTime s; interval := t |}.

Section Clock.

(** [storyboard.length]. *)
Variable len : Z.

(** The effect body, run at mount and after a render whose
    dependencies changed (its cleanup has cleared the interval). *)
Definition effectBody (now : Z) (s : State) : State :=
  if isPlaying s && negb (isExporting s) then
    {| currentIndex := currentIndex s; isPlaying := isPlaying s;
       progress := progress s; isExporting := isExporting s;
       startTime := inject_Z now - (progress s / 100) * DURATION_PER_SHOT;
       interval := Some {| capIndex := currentIndex s; capLength := len |} |}
  else withInterval None s.

(** Dependencies [isPlaying, currentIndex, storyboard.length,
    isExporting], compared between the previous render (state [old],
    length [len]) and the next (state [new], length [newLen]). *)
Definition depsChanged (newLen : Z) (old new : State) : bool :=
  negb (Bool.eqb (isPlaying old) (isPlaying new))
  || negb (currentIndex old =? currentIndex new)%Z
  || negb (len =? newLen)%Z
  || negb (Bool.eqb (isExporting old) (isExporting new)).

(** The interval callback. *)
Definition tickBody (now : Z) (t : Timer) (s : State) : State :=
  let elapsed := inject_Z now - startTime s in
  let newProgress := (elapsed / DURATION_PER_SHOT) * 100 in
  if Qle_bool 100 newProgress then
    if (capIndex t <? capLength t - 1)%Z then
      {| currentIndex := (currentIndex s + 1)%Z; isPlaying := isPlaying s;
         progress := 0; isExporting := isExporting s;
         startTime := inject_Z now; interval := interval s |}
    else
      {| currentIndex := currentIndex s; isPlaying := false;
         progress := 100; isExporting := isExporting s;
         startTime := startTime s; interval := None |}
  else
    {| currentIndex := currentIndex s; isPlaying := isPlaying s;
       progress := newProgress; isExporting := isExporting s;
       startTime := startTime s; interval := interval s |}.

Definition handleJump (index now : Z) (s : State) : State :=
  if isExporting s then s
  else
    {| currentIndex := index; isPlaying := isPlaying s;
       progress := 0; isExporting := isExporting s;
       startTime := inject_Z now; interval := interval s |}.

Definition togglePlay (now : Z) (s : State) : State :=
  if isExporting s then s
  else
    let restart :=
      negb (isPlaying s) && Qle_bool 100 (progress s)
      && (currentIndex s =? len - 1)%Z in
    {| currentIndex := if restart then 0%Z else currentIndex s;
       isPlaying := negb (isPlaying s);
       progress := if restart then 0 else progress s;
       isExporting := isExporting s;
       startTime := if restart then inject_Z now else startTime s;
       interval := interval s |}.

Definition handleNext (now : Z) (s : State) : State :=
  if (currentIndex s <? len - 1)%Z
  then handleJump (currentIndex s + 1)%Z now s else s.

Definition handlePrev (now : Z) (s : State) : State :=
  if (currentIndex s >? 0)%Z
  then handleJump (currentIndex s - 1)%Z now s else s.

(** The state changes made by [handleExportVideo] and by the end of
    an export ([onstop], or the [catch] block). *)
Definition exportBegin (s : State) : State :=
  if isExporting s then s
  else
    {| currentIndex := currentIndex s; isPlaying := false;
       progress := progress s; isExporting := true;
       startTime := startTime s; interval := interval s |}.

Definition exportEnd (s : State) : State :=
  {| currentIndex := currentIndex s; isPlaying := isPlaying s;
     progress := progress s; isExporting := false;
     startTime := startTime s; interval := interval s |}.

Inductive action :=
| Tick
| Jump (index : Z)               (* click on thumbnail [index] *)
| TogglePlay
| Next
| Prev
| ExportBegin
| ExportEnd.

(** Thumbnails exist for the indices of the storyboard only. *)
Definition enabled (a : action) : Prop :=
  match a with
  | Jump index => (0 <= index < len)%Z
  | _ => True
  end.

Definition handler (a : action) (now : Z) (s : State) : State :=
  match a with
  | Tick =>
      match interval s with
      | Some t => tickBody now t s
      | None => s
      end
  | Jump index => handleJump index now s
  | TogglePlay => togglePlay now s
  | Next => handleNext now s
  | Prev => handlePrev now s
  | ExportBegin => exportBegin s
  | ExportEnd => exportEnd s
  end.

Definition mount (now : Z) : State :=
  effectBody now
    {| currentIndex := 0; isPlaying := true; progress := 0;
       isExporting := false; startTime := 0; interval := None |}.

(** A live interval was armed by the current render. *)
Definition closure_inv (s : State) : Prop :=
  forall t, interval s = Some t ->
            capIndex t = currentIndex s /\ capLength t = len.

(** The index is inside the storyboard, and a live interval was
    armed by the current render. *)
Definition clock_inv (s : State) : Prop :=
  (0 <= currentIndex s <= len - 1)%Z
  /\ forall t, interval s = Some t ->
               capIndex t = currentIndex s /\ capLength t = len.

(** Progress computed by a tick at [now]. *)
Definition newProgress (now : Z) (s : State) : Q :=
  ((inject_Z now - startTime s) / DURATION_PER_SHOT) * 100.

End Clock.

(** A render with a storyboard of [newLen] shots following one with
    [len] shots: the effect is cleaned up and run again if a dependency
    changed. *)
Definition rerender (len newLen now : Z) (old new : State) : State :=
  if depsChanged len newLen old new
  then effectBody newLen now (withInterval None new)
  else new.

(** One event: the handler runs at time [now], then the component
    renders again with the same storyboard. *)
Definition step (len : Z) (a : action) (now : Z) (s : State) : State :=
  rerender len len now s (handler len a now s).

(** [const currentShot = storyboard[currentIndex]].  The JSX of every
    render reads [currentShot.imageUrl] (in [getDisplayImage]),
    [currentShot.dialogue] and [currentShot.visualAction]: with no shot
    at the index, [currentShot] is [undefined] and the render raises a
    TypeError. *)
Definition currentShotDefined (len : Z) (s : State) : bool :=
  (0 <=? currentIndex s)%Z && (currentIndex s <? len)%Z.

(** The parent renders the editor again with a storyboard of [newLen]
    shots ([setShots] in App.tsx while the editor is mounted); the
    component state is kept as it is.  This is the state committed if
    the render returns. *)
Definition replaceStoryboard (len newLen now : Z) (s : State) : State :=
  rerender len newLen now s s.

(** The same, with the outcome of the render: [None] when it raises,
    which unmounts the editor. *)
Definition receiveStoryboard (len newLen now : Z) (s : State)
  : option State :=
  if currentShotDefined newLen s
  then Some (replaceStoryboard len newLen now s)
  else None.

(** The states of the clock (effect, interval and handlers), with the
    length of the storyboard of the latest render.  The JSX is left out
    of this relation: it also holds the states that would follow a
    render that raises, so it contains every state the editor commits
    and more. *)
Inductive reachable : Z -> State -> Prop :=
| reach_mount (len now : Z) : reachable len (mount len now)
| reach_step (len : Z) (s : State) (a : action) (now : Z) :
    reachable len s -> enabled len a -> reachable len (step len a now s)
| reach_replace (len newLen : Z) (s : State) (now : Z) :
    reachable len s -> (0 <= newLen)%Z ->
    reachable newLen (replaceStoryboard len newLen now s).

(** The states the editor commits: the first render and every render
    with a new storyboard found a shot at the current index.  (The
    render after an event always finds one, see [step_inv].) *)
Inductive committed : Z -> State -> Prop :=
| commit_mount (len now : Z) :
    currentShotDefined len (mount len now) = true ->
    committed len (mount len now)
| commit_step (len : Z) (s : State) (a : action) (now : Z) :
    committed len s -> enabled len a ->
    committed len (step len a now s)
| commit_replace (len newLen : Z) (s : State) (now : Z) :
    committed len s -> currentShotDefined newLen s = true ->
    committed newLen (replaceStoryboard len newLen now s).

End Playback.

(* ------------------------------------------------------------------ *)
(** ** Sample data *)

Module Samples.

Import ExportPipeline.

(** Dialogue "Hi", with an image. *)
Definition shotA : Shot :=
  {| id := [49]%N; sceneId := None; originalScriptSegment := [];
     dialogue := Some [72; 105]%N; visualAction := []; cameraAngle := [];
     img2vidPrompt := []; imageUrl := Some [97]%N; videoUrl := None;
     isLoading := false; isError := false |}.

(** No dialogue, no image. *)
Definition shotB : Shot :=
  {| id := [50]%N; sceneId := None; originalScriptSegment := [];
     dialogue := None; visualAction := []; cameraAngle := [];
     img2vidPrompt := []; imageUrl := None; videoUrl := None;
     isLoading := false; isError := false |}.

(** The application holds [[shotA; shotB]] at address 0. *)
Definition store2 : Store :=
  {| heap := [[shotA; shotB]]; shotsCell := 0%nat |}.

(** The application holds the one-shot list [[shotA]] at address 0. *)
Definition store1 : Store :=
  {| heap := [[shotA]]; shotsCell := 0%nat |}.

(** The application holds an empty list at address 0. *)
Definition store0 : Store :=
  {| heap := [[]]; shotsCell := 0%nat |}.

(** A browser in which everything works: images decode to 1600x900,
    [glyphWidth] is the text metric, one 3-byte chunk is encoded. *)
Definition hostOk : Host :=
  {| contextAvailable := true;
     vp9Supported := true;
     recorderAvailable := true;
     decode := fun _ _ =>
                 Loaded {| naturalWidth := 1600; imgWidth := 1600;
                           imgHeight := 900 |};
     measure := fun _ => TextWrapper.glyphWidth;
     canvasFault := fun _ => false;
     encoded := [[26; 69; 223]%N];
     stopTime := 1700000000000;
     updates := fun _ => [] |}.

(** The same browser where a canvas call raises while shot 0 is
    drawn. *)
Definition hostFaulty : Host :=
  {| contextAvailable := true;
     vp9Supported := true;
     recorderAvailable := true;
     decode := fun _ _ =>
             Loaded {| naturalWidth := 1600; imgWidth := 1600;
                       imgHeight := 900 |};
     measure := fun _ => TextWrapper.glyphWidth;
     canvasFault := fun i => (i =? 0)%nat;
     encoded := [];
     stopTime := 1700000000000;
     updates := fun _ => [] |}.

(** The same browser while the application, during the first
    iteration, drops the first shot from its list and then empties
    it. *)
Definition hostBusy : Host :=
  {| contextAvailable := true;
     vp9Supported := true;
     recorderAvailable := true;
     decode := fun _ _ =>
             Loaded {| naturalWidth := 1600; imgWidth := 1600;
                       imgHeight := 900 |};
     measure := fun _ => TextWrapper.glyphWidth;
     canvasFault := fun _ => false;
     encoded := [[26; 69; 223]%N];
     stopTime := 1700000000000;
     updates := fun i => if (i =? 0)%nat
                         then [@tl Shot; fun _ => []] else [] |}.

End Samples.

(* ------------------------------------------------------------------ *)
(** ** Shape of a wrapped text *)

Module WrapShape.

Section Shape.

Variable measureText : jsstring -> Q.
Variable maxWidth : Q.

(** [next] begins with a code unit that did not fit at the end of
    [prev]. *)
Definition overflowed (prev next : jsstring) : Prop :=
  match next with
  | c :: _ => maxWidth < measureText (prev ++ [c])
  | [] => False
  end.

(** [R] holds between every line and the one after it. *)
Fixpoint chained (R : jsstring -> jsstring -> Prop) (ls : list jsstring)
  : Prop :=
  match ls with
  | l1 :: tl =>
      match tl with
      | l2 :: _ => R l1 l2 /\ chained R tl
      | [] => True
      end
  | [] => True
  end.

End Shape.

End WrapShape.

(* ------------------------------------------------------------------ *)
(** ** Reading an export trace *)

Module ExportTrace.

Import ExportPipeline.

Definition is_drawImage (e : event) : bool :=
  match e with CanvasCall (DrawImage _ _ _ _ _) => true | _ => false end.

Definition is_missingLabel (e : event) : bool :=
  match e with CanvasCall (FillTextMissing _ _) => true | _ => false end.

Definition is_warn (e : event) : bool :=
  match e with ConsoleWarn _ => true | _ => false end.

Definition is_download (e : event) : bool :=
  match e with Download _ _ => true | _ => false end.

Definition is_request (e : event) : bool :=
  match e with ImageRequest _ _ => true | _ => false end.

(** The events an iteration of the loop can emit. *)
Definition is_loop_event (e : event) : bool :=
  match e with
  | SetExportProgress _ | ImageRequest _ _ | ConsoleWarn _
  | CanvasCall _ | Hold _ => true
  | _ => false
  end.

(** The events of the [try] block before [recorder.stop()]. *)
Definition is_body_event (e : event) : bool :=
  match e with
  | CreateCanvas _ _ | CaptureStream _ | NewRecorder _ _ | RecorderStart => true
  | _ => is_loop_event e
  end.

(** The three pieces of component state the export writes. *)
Record Flags := {
  exporting : bool;
  exportProgress : Z;
  playing : bool
}.

(** The effect of one state setter; other events leave the state
    alone. *)
Definition setter (f : Flags) (e : event) : Flags :=
  match e with
  | SetIsExporting b =>
      {| exporting := b; exportProgress := exportProgress f;
         playing := playing f |}
  | SetExportProgress p =>
      {| exporting := exporting f; exportProgress := p;
         playing := playing f |}
  | SetIsPlaying b =>
      {| exporting := exporting f; exportProgress := exportProgress f;
         playing := b |}
  | _ => f
  end.

Definition flagsAfter (tr : list event) (f : Flags) : Flags :=
  fold_left setter tr f.

End ExportTrace.

(* ------------------------------------------------------------------ *)
(** ** The application's updates of the shot list (App.tsx) *)

Module AppShots.

Definition id_eqb (a b : jsstring) : bool :=
  if list_eq_dec N.eq_dec a b then true else false.

(** [prev.map(s => s.id === k ? f(s) : s)], the form of every update by
    shot id. *)
Definition mapShot (k : jsstring) (f : Shot -> Shot) (prev : list Shot)
  : list Shot :=
  map (fun s => if id_eqb (id s) k then f s else s) prev.

(** [{ ...s, isLoading: true }]. *)
Definition markLoading (s : Shot) : Shot :=
  {| id := id s; sceneId := sceneId s;
     originalScriptSegment := originalScriptSegment s;
     dialogue := dialogue s; visualAction := visualAction s;
     cameraAngle := cameraAngle s; img2vidPrompt := img2vidPrompt s;
     imageUrl := imageUrl s; videoUrl := videoUrl s;
     isLoading := true; isError := isError s |}.

(** [{ ...s, isLoading: false, imageUrl }]. *)
Definition setImage (url : jsstring) (s : Shot) : Shot :=
  {| id := id s; sceneId := sceneId s;
     originalScriptSegment := originalScriptSegment s;
     dialogue := dialogue s; visualAction := visualAction s;
     cameraAngle := cameraAngle s; img2vidPrompt := img2vidPrompt s;
     imageUrl := Some url; videoUrl := videoUrl s;
     isLoading := false; isError := isError s |}.

(** [{ ...s, isLoading: false, isError: true }]. *)
Definition markError (s : Shot) : Shot :=
  {| id := id s; sceneId := sceneId s;
     originalScriptSegment := originalScriptSegment s;
     dialogue := dialogue s; visualAction := visualAction s;
     cameraAngle := cameraAngle s; img2vidPrompt := img2vidPrompt s;
     imageUrl := imageUrl s; videoUrl := videoUrl s;
     isLoading := false; isError := true |}.

(** What the image service and the user do during [processShotQueue]:
    [generated i] is the URL [generateShotImage] resolved to for
    [initialShots[i]], or [None] if it was rejected; [generating i] is
    [isGeneratingRef.current] when iteration [i] tests it. *)
Record Generation := {
  generated : nat -> option jsstring;
  generating : nat -> bool
}.

(** The loop of [processShotQueue] from index [i], [queue] being
    [initialShots] from [i] on. *)
Fixpoint processShotQueue (gen : Generation) (i : nat) (queue : list Shot)
         (st : Store) : Store :=
  match queue with
  | [] => st
  | shot :: rest =>
      if generating gen i then
        let shotId := id shot in
        let st1 := setShots (mapShot shotId markLoading) st in
        let st2 :=
          match generated gen i with
          | Some imageUrl => setShots (mapShot shotId (setImage imageUrl)) st1
          | None => setShots (mapShot shotId markError) st1
          end in
        processShotQueue gen (S i) rest st2
      else st
  end.

(** [setShots(initialShots); processShotQueue(initialShots, ...)] at the
    end of [handleConfirmPreProduction]. *)
Definition startQueue (gen : Generation) (initialShots : list Shot)
           (st : Store) : Store :=
  processShotQueue gen 0 initialShots (setShots (fun _ => initialShots) st).

(** The list the application holds. *)
Definition shots (st : Store) : list Shot := readArray st (shotsCell st).

(** How shot [i] ends up once its iteration is over. *)
Definition settled (gen : Generation) (i : nat) (s : Shot) : Shot :=
  match generated gen i with
  | Some imageUrl => setImage imageUrl s
  | None => markError s
  end.

Fixpoint settleFrom (gen : Generation) (i : nat) (l : list Shot) : list Shot :=
  match l with
  | [] => []
  | s :: rest => settled gen i s :: settleFrom gen (S i) rest
  end.

End AppShots.

(* ------------------------------------------------------------------ *)
(** ** Runs of the playback clock *)

Module PlaybackRuns.

Import Playback.

(** The interval is live exactly while playing outside an export, and
    an export in progress means paused. *)
Definition timer_inv (s : State) : Prop :=
  (interval s <> None <-> isPlaying s && negb (isExporting s) = true)
  /\ (isExporting s = true -> isPlaying s = false).

(** The shot start is not in the future and the progress is a
    percentage. *)
Definition progress_inv (t : Z) (s : State) : Prop :=
  startTime s <= inject_Z t /\ 0 <= progress s /\ progress s <= 100.

(** States reached with a clock that never runs backwards: [t] is the
    time of the latest event, [len] the length of the storyboard of the
    latest render. *)
Inductive reachable_at : Z -> Z -> State -> Prop :=
| at_mount (len now : Z) : reachable_at len now (mount len now)
| at_step (len t : Z) (s : State) (a : action) (now : Z) :
    reachable_at len t s -> enabled len a -> (t <= now)%Z ->
    reachable_at len now (step len a now s)
| at_replace (len newLen t : Z) (s : State) (now : Z) :
    reachable_at len t s -> (0 <= newLen)%Z -> (t <= now)%Z ->
    reachable_at newLen now (replaceStoryboard len newLen now s).

End PlaybackRuns.

(* ------------------------------------------------------------------ *)
(** ** The timeline bar *)

Module Timeline.

Import Playback.

(** The width, in percent, given to the global progress bar:
    [(currentIndex / storyboard.length) * 100]. *)
Definition barWidth (len : Z) (s : State) : Q :=
  (inject_Z (currentIndex s) / inject_Z len) * 100.

End Timeline.

(* ================================================================== *)
(** * Properties *)

Import TextWrapper.

Lemma Qgtb_true (a b : Q) : Qgtb a b = true <-> b < a.
Proof.
  unfold Qgtb. rewrite negb_true_iff.
  split; intro H.
  - apply Qnot_le_lt. intro Hle. apply Qle_bool_iff in Hle. congruence.
  - destruct (Qle_bool a b) eqn:E; [|reflexivity].
    apply Qle_bool_iff in E. exfalso. apply (Qlt_not_le _ _ H E).
Qed.

Lemma Qgtb_false (a b : Q) : Qgtb a b = false <-> a <= b.
Proof.
  unfold Qgtb. rewrite negb_false_iff. apply Qle_bool_iff.
Qed.

(* ------------------------------------------------------------------ *)
(** ** The wrapper *)

Section WrapperFacts.

Variable measureText : jsstring -> Q.
Variable maxWidth : Q.

Abbreviation wrapLoop := (wrapLoop measureText maxWidth).
Abbreviation countLoop := (countLoop measureText maxWidth).
Abbreviation wrapLines := (wrapLines measureText maxWidth).
Abbreviation countLines := (countLines measureText maxWidth).

(** The loop only moves code units from [chars] to the end of what it
    has already laid out. *)
Lemma wrapLoop_concat (chars : list code_unit) :
  forall n line lines,
    concat (snd (wrapLoop chars n line lines)) ++ fst (wrapLoop chars n line lines)
    = concat lines ++ line ++ chars.
Proof.
  induction chars as [|c rest IH]; intros n line lines; cbn [TextWrapper.wrapLoop].
  - cbn. now rewrite app_nil_r.
  - destruct (Qgtb (measureText (line ++ [c])) maxWidth && (0 <? n)%nat).
    + rewrite IH, concat_app. cbn. now rewrite app_nil_r, <- !app_assoc.
    + rewrite IH. now rewrite <- !app_assoc.
Qed.

Lemma wrapLines_unfold (text : jsstring) :
  wrapLines text
  = snd (wrapLoop text 0 [] []) ++ [fst (wrapLoop text 0 [] [])].
Proof.
  unfold TextWrapper.wrapLines. now destruct (wrapLoop text 0 [] []).
Qed.

(** The counting loop is the wrapping loop with [lines] replaced by
    its length. *)
Lemma countLoop_wrapLoop (chars : list code_unit) :
  forall n line lines k,
    k = Z.of_nat (length lines) ->
    fst (countLoop chars n line (k + 1)%Z) = fst (wrapLoop chars n line lines)
    /\ snd (countLoop chars n line (k + 1)%Z)
       = (Z.of_nat (length (snd (wrapLoop chars n line lines))) + 1)%Z.
Proof.
  induction chars as [|c rest IH]; intros n line lines k Hk;
    cbn [TextWrapper.wrapLoop TextWrapper.countLoop].
  - cbn. now subst.
  - destruct (Qgtb (measureText (line ++ [c])) maxWidth && (0 <? n)%nat).
    + apply IH. rewrite length_app. cbn. lia.
    + now apply IH.
Qed.

Lemma single_fits_or_single (c : code_unit) :
  fits_or_single measureText maxWidth [c].
Proof.
  unfold fits_or_single.
  destruct (Qlt_le_dec maxWidth (measureText [c])) as [Hlt|Hle].
  - right. now exists c.
  - now left.
Qed.

Lemma wrapLoop_fits (chars : list code_unit) :
  forall n line lines,
    line_ok measureText maxWidth n line ->
    Forall (fits_or_single measureText maxWidth) lines ->
    (n = 0%nat -> chars = [] -> measureText [] <= maxWidth) ->
    Forall (fits_or_single measureText maxWidth)
      (snd (wrapLoop chars n line lines) ++ [fst (wrapLoop chars n line lines)]).
Proof.
  induction chars as [|c rest IH]; intros n line lines Hline Hlines Hempty;
    cbn [TextWrapper.wrapLoop].
  - cbn [fst snd]. apply Forall_app. split; [assumption|].
    constructor; [|constructor].
    destruct Hline as [[-> ->]|[_ [Hle|[d ->]]]].
    + left. now apply Hempty.
    + now left.
    + apply single_fits_or_single.
  - destruct (Qgtb (measureText (line ++ [c])) maxWidth) eqn:Egt;
      destruct (0 <? n)%nat eqn:En; cbn [andb].
    + (* flush: only reached with [n > 0] *)
      apply Nat.ltb_lt in En.
      apply IH; [right; split; [lia|right; now exists c] | | lia].
      apply Forall_app. split; [assumption|].
      constructor; [|constructor].
      destruct Hline as [[-> _]|[_ [Hle|[d ->]]]]; [lia|now left|].
      apply single_fits_or_single.
    + (* first code unit: taken whatever its width *)
      apply Nat.ltb_ge in En. assert (n = 0%nat) by lia. subst n.
      destruct Hline as [[_ ->]|[Hn _]]; [|lia].
      apply IH; [|assumption|lia].
      right. split; [lia|]. right. now exists c.
    + apply Nat.ltb_lt in En.
      apply IH; [|assumption|lia].
      right. split; [lia|]. left. now apply Qgtb_false.
    + apply IH; [|assumption|lia].
      right. split; [lia|]. left. now apply Qgtb_false.
Qed.

End WrapperFacts.

(** C2.  Joining the lines made by the wrapping loop of
    [drawWrappedText], in order, gives back the input string: no code
    unit is dropped, repeated or moved. *)
Theorem wrapLines_concat (measureText : jsstring -> Q) (maxWidth : Q)
        (text : jsstring) :
  concat (wrapLines measureText maxWidth text) = text.
Proof.
  rewrite wrapLines_unfold, concat_app. cbn [concat].
  rewrite app_nil_r.
  exact (wrapLoop_concat measureText maxWidth text 0 [] []).
Qed.

(** The counter of the inline loop is the number of wrapped lines. *)
Lemma countLines_length (m : jsstring -> Q) (w : Q) (t : jsstring) :
  countLines m w t = Z.of_nat (length (wrapLines m w t)).
Proof.
  unfold countLines. rewrite wrapLines_unfold.
  destruct (countLoop_wrapLoop m w t 0 [] [] 0%Z eq_refl) as [_ Hc].
  cbn [Z.add] in Hc. rewrite Hc, length_app. cbn [length]. lia.
Qed.

(** The text calls of [drawWrappedText] are one [fillText] per line. *)
Lemma filledLines_drawLines (ls : list jsstring) :
  forall idx x y lh,
    length (Compositor.filledLines (Compositor.drawLines ls idx x y lh))
    = length ls.
Proof.
  induction ls as [|l rest IH]; intros idx x y lh; cbn; [reflexivity|].
  now rewrite IH.
Qed.

(** C10.  The inline measuring loop of the export path and the loop of
    [drawWrappedText] agree: the counter equals the number of lines, so
    [lineCount] is the number of lines that [drawWrappedText] then draws
    for the same dialogue, font and width. *)
Theorem countLines_eq_wrapLines (measure : Z -> jsstring -> Q)
        (width height : Z) (maxW : Q) (px : Z) (text : jsstring) :
  countLines (measure px) maxW text
  = Z.of_nat (length (wrapLines (measure px) maxW text))
  /\ Compositor.lineCount measure width height text
     = Z.of_nat (length (Compositor.filledLines
                           (Compositor.drawWrappedText
                              (measure (Compositor.fontSize height)) text
                              (Compositor.textX width)
                              (Compositor.startY measure width height text)
                              (Compositor.maxWidth width)
                              (Compositor.lineHeight height)))).
Proof.
  assert (H : forall m w t,
             countLines m w t = Z.of_nat (length (wrapLines m w t))).
  { intros m w t. apply countLines_length. }
  split; [apply H|].
  unfold Compositor.lineCount, Compositor.drawWrappedText.
  now rewrite filledLines_drawLines, H.
Qed.

(** C6, the statement with characters as units fails: with the budget
    35 px and the text "ab" followed by U+1F600, the third line break
    falls between the two halves of the surrogate pair. *)
Lemma wrapper_cuts_surrogate_pair :
  ~ bounded_unsplit glyphWidth 35 [97; 98; 55357; 56832]%N.
Proof.
  intros [_ H]. vm_compute in H. discriminate H.
Qed.

(** C6 as amended.  When the empty string is not wider than the
    budget, every line made by the wrapping loop fits the budget or is
    a single UTF-16 code unit that alone exceeds it; the lines partition
    the code units of the text, so no code unit is cut (a surrogate
    pair is two units and is not kept together). *)
Theorem wrapLines_fit_or_single_unit (measureText : jsstring -> Q)
        (maxWidth : Q) (text : jsstring)
        (Hempty : measureText [] <= maxWidth) :
  Forall (fits_or_single measureText maxWidth)
         (wrapLines measureText maxWidth text)
  /\ concat (wrapLines measureText maxWidth text) = text.
Proof.
  split.
  - rewrite wrapLines_unfold.
    apply wrapLoop_fits; [left; now split | constructor | now intros].
  - rewrite wrapLines_unfold, concat_app. cbn [concat].
    rewrite app_nil_r.
    exact (wrapLoop_concat measureText maxWidth text 0 [] []).
Qed.

Lemma wrapLines_fit_or_single_unit_witness :
  glyphWidth [] <= 35
  /\ Forall (fits_or_single glyphWidth 35)
            (wrapLines glyphWidth 35 [97; 98; 55357; 56832]%N)
  /\ concat (wrapLines glyphWidth 35 [97; 98; 55357; 56832]%N)
     = [97; 98; 55357; 56832]%N.
Proof.
  split.
  - vm_compute. discriminate.
  - apply (wrapLines_fit_or_single_unit glyphWidth 35 [97; 98; 55357; 56832]%N).
    vm_compute. discriminate.
Defined.

(* ------------------------------------------------------------------ *)
(** ** Frame geometry *)

Lemma inject_Z_pos (z : Z) : (0 < z)%Z -> 0 < inject_Z z.
Proof.
  intro H. change 0 with (inject_Z 0). now rewrite <- Zlt_Qlt.
Qed.

Lemma Qdiv_lt_mult (a b c : Q) : 0 < c -> a / c < b -> a < b * c.
Proof.
  intros Hc H.
  setoid_replace a with (a / c * c)
    by (field; intro E; rewrite E in Hc; now apply Qlt_irrefl in Hc).
  now apply Qmult_lt_compat_r.
Qed.

Lemma Qdiv_ge_mult (a b c : Q) : 0 < c -> b <= a / c -> b * c <= a.
Proof.
  intros Hc H.
  setoid_replace a with (a / c * c)
    by (field; intro E; rewrite E in Hc; now apply Qlt_irrefl in Hc).
  apply Qmult_le_compat_r; [assumption|now apply Qlt_le_weak].
Qed.

(** C3.  Cover fit, for an image and a surface with positive sizes.  If
    the image is relatively wider than the surface, the drawn height is
    the surface height, [offsetY] is 0 and [offsetX] is
    [(width - drawW) / 2], so that the part cut left of the surface
    equals the part cut right of it; otherwise the drawn width is the
    surface width, [offsetX] is 0 and [offsetY] is
    [(height - drawH) / 2], with equal parts cut above and below.  In
    both cases the drawn image covers the surface. *)
Theorem coverFit_centered (img : HostImage) (width height : Z)
        (Hiw : (0 < imgWidth img)%Z) (Hih : (0 < imgHeight img)%Z)
        (Hw : (0 < width)%Z) (Hh : (0 < height)%Z) :
  let f := Compositor.coverFit img width height in
  let imgRatio := inject_Z (imgWidth img) / inject_Z (imgHeight img) in
  let canvasRatio := inject_Z width / inject_Z height in
  (canvasRatio < imgRatio ->
     Compositor.drawH f = inject_Z height
     /\ Compositor.drawW f = inject_Z height * imgRatio
     /\ Compositor.offsetX f = (inject_Z width - Compositor.drawW f) / 2
     /\ Compositor.offsetY f = 0
     /\ 0 - Compositor.offsetX f
        == Compositor.offsetX f + Compositor.drawW f - inject_Z width
     /\ inject_Z width <= Compositor.drawW f)
  /\ (imgRatio <= canvasRatio ->
     Compositor.drawW f = inject_Z width
     /\ Compositor.drawH f = inject_Z width / imgRatio
     /\ Compositor.offsetX f = 0
     /\ Compositor.offsetY f = (inject_Z height - Compositor.drawH f) / 2
     /\ 0 - Compositor.offsetY f
        == Compositor.offsetY f + Compositor.drawH f - inject_Z height
     /\ inject_Z height <= Compositor.drawH f).
Proof.
  intros f imgRatio canvasRatio.
  pose proof (inject_Z_pos _ Hiw) as Piw.
  pose proof (inject_Z_pos _ Hih) as Pih.
  pose proof (inject_Z_pos _ Hw) as Pw.
  pose proof (inject_Z_pos _ Hh) as Ph.
  assert (Pr : 0 < imgRatio).
  { unfold imgRatio. apply Qlt_shift_div_l; [assumption|]. now rewrite Qmult_0_l. }
  subst f. unfold Compositor.coverFit. fold imgRatio canvasRatio.
  split; intro Hcmp.
  - apply Qgtb_true in Hcmp. rewrite Hcmp. cbn.
    repeat split; try reflexivity.
    + generalize (inject_Z height * imgRatio). intro q. field.
    + apply Qgtb_true in Hcmp. unfold canvasRatio in Hcmp.
      apply Qlt_le_weak. rewrite Qmult_comm.
      now apply Qdiv_lt_mult.
  - apply Qgtb_false in Hcmp. rewrite Hcmp. cbn.
    repeat split; try reflexivity.
    + generalize (inject_Z width / imgRatio). intro q. field.
    + apply Qgtb_false in Hcmp. unfold canvasRatio in Hcmp.
      apply Qle_shift_div_l; [assumption|].
      rewrite Qmult_comm. now apply Qdiv_ge_mult.
Qed.

Lemma coverFit_centered_witness :
  ((0 < 1600)%Z /\ (0 < 900)%Z /\ (0 < 1080)%Z /\ (0 < 1080)%Z)
  /\ Compositor.drawH
       (Compositor.coverFit
          {| naturalWidth := 1600; imgWidth := 1600; imgHeight := 900 |}
          1080 1080) = inject_Z 1080
  /\ Compositor.offsetY
       (Compositor.coverFit
          {| naturalWidth := 1600; imgWidth := 1600; imgHeight := 900 |}
          1080 1080) = 0.
Proof.
  split; [lia|].
  destruct (coverFit_centered
              {| naturalWidth := 1600; imgWidth := 1600; imgHeight := 900 |}
              1080 1080) as [Hwide _]; cbn; try lia.
  destruct Hwide as (HdrawH & _ & _ & HoffY & _).
  - reflexivity.
  - split; assumption.
Defined.

Lemma filledLines_app (a b : list op) :
  Compositor.filledLines (a ++ b)
  = Compositor.filledLines a ++ Compositor.filledLines b.
Proof.
  induction a as [|o a IH]; [reflexivity|].
  destruct o; cbn; now rewrite ?IH.
Qed.

(** Where [drawWrappedText] puts each line: line [k] of the call starts
    at [y + (idx + k) * lineHeight]. *)
Lemma filledLines_drawLines_at (ls : list jsstring) :
  forall idx x y lh,
    Compositor.filledLines (Compositor.drawLines ls idx x y lh)
    = combine ls
        (map (fun k => y + inject_Z (idx + Z.of_nat k) * lh)
             (seq 0 (length ls))).
Proof.
  induction ls as [|l rest IH]; intros idx x y lh; [reflexivity|].
  cbn [Compositor.drawLines Compositor.filledLines length seq map combine].
  rewrite Z.add_0_r. f_equal.
  rewrite IH, <- seq_shift, map_map. f_equal.
  apply map_ext. intro k. do 3 f_equal. lia.
Qed.

Lemma drawPicture_no_text (width height : Z) (img : HostImage) :
  Compositor.filledLines (Compositor.drawPicture width height img) = [].
Proof.
  unfold Compositor.drawPicture.
  now destruct (naturalWidth img >? 0)%Z.
Qed.

(** C7.  For a shot with non-empty dialogue on a surface of height [H],
    with font size [floor(0.04 H)] and line height [1.35] times the
    font size: the lines the frame draws are the wrapped lines, line
    [k] at [startY + k * lineHeight], where
    [startY = H - 0.08 H - lineCount * lineHeight] and [lineCount] is
    the number of lines drawn; hence the block ends [0.08 H] above the
    bottom edge. *)
Theorem subtitle_block_position (measure : Z -> jsstring -> Q)
        (width height : Z) (img : HostImage) (d : jsstring)
        (Hd : truthy (Some d) = true) :
  let H := inject_Z height in
  let fontSize := Qfloor (H * 0.04) in
  let lineHeight := inject_Z fontSize * 1.35 in
  let lines := wrapLines (measure fontSize) (inject_Z width * 0.85) d in
  let lineCount := Z.of_nat (length lines) in
  let startY := H - (H * 0.08) - inject_Z lineCount * lineHeight in
  Compositor.lineCount measure width height d = lineCount
  /\ Compositor.startY measure width height d = startY
  /\ Compositor.filledLines
       (Compositor.compositeFrame measure width height img (Some d))
     = combine lines
         (map (fun k => startY + inject_Z (Z.of_nat k) * lineHeight)
              (seq 0 (length lines)))
  /\ (1 <= lineCount)%Z
  /\ H - (startY + inject_Z lineCount * lineHeight) == 0.08 * H.
Proof.
  intros H fontSize lineHeight lines lineCount startY.
  assert (Hcount : Compositor.lineCount measure width height d = lineCount).
  { unfold Compositor.lineCount. apply countLines_length. }
  assert (Hstart : Compositor.startY measure width height d = startY).
  { unfold Compositor.startY. now rewrite Hcount. }
  split; [exact Hcount|]. split; [exact Hstart|]. split; [|split].
  - unfold Compositor.compositeFrame. rewrite Hd.
    rewrite filledLines_app, drawPicture_no_text. cbn [app].
    unfold Compositor.drawSubtitles.
    rewrite filledLines_app. cbn [Compositor.filledLines app].
    unfold Compositor.drawWrappedText.
    rewrite filledLines_drawLines_at, Hstart. reflexivity.
  - subst lineCount lines. rewrite wrapLines_unfold, length_app. cbn. lia.
  - subst startY. ring.
Qed.

Lemma subtitle_block_position_witness :
  truthy (Some [72; 105]%N) = true
  /\ Compositor.startY (fun _ => glyphWidth) 1920 1080 [72; 105]%N
     == 935.55.
Proof.
  split; [reflexivity|].
  destruct (subtitle_block_position
              (fun _ => glyphWidth) 1920 1080
              {| naturalWidth := 0; imgWidth := 0; imgHeight := 0 |}
              [72; 105]%N eq_refl) as (_ & Hstart & _).
  rewrite Hstart. vm_compute. reflexivity.
Defined.

(* ------------------------------------------------------------------ *)
(** ** The export run *)

Import ExportPipeline.

Section StoreFacts.

Variable sb : loc.

Lemma setShots_keeps (f : list Shot -> list Shot) (st : Store) :
  (sb < length (heap st))%nat ->
  readArray (setShots f st) sb = readArray st sb
  /\ (sb < length (heap (setShots f st)))%nat.
Proof.
  intro Hsb. unfold readArray, setShots. cbn [heap].
  split.
  - now apply app_nth1.
  - rewrite length_app. cbn. lia.
Qed.

(** An address allocated before the updates still holds the same
    array after them. *)
Lemma applyUpdates_keeps (fs : list (list Shot -> list Shot)) :
  forall st,
    (sb < length (heap st))%nat ->
    readArray (applyUpdates fs st) sb = readArray st sb
    /\ (sb < length (heap (applyUpdates fs st)))%nat.
Proof.
  induction fs as [|f fs IH]; intros st Hsb; cbn; [now split|].
  destruct (setShots_keeps f st Hsb) as [Hrd Hlt].
  destruct (IH _ Hlt) as [Hrd' Hlt'].
  unfold applyUpdates in *. split; [congruence|assumption].
Qed.

End StoreFacts.

Lemma erase_bind {A} (c : Run unit) (m : Run A) :
  erase (c ;;; m) = (c ;;; erase m).
Proof.
  destruct c as [tr [[]| |]]; destruct m as [tr' [a| |]]; reflexivity.
Qed.

Section LoopFacts.

Variable host : Host.
Variables width height : Z.
Variable sb : loc.

(** With enough fuel the loop is the body run over the array that
    [sb] held when the loop was entered, whatever the application
    does to its shot list meanwhile. *)
Lemma exportLoop_cycles (rest : list Shot) :
  forall fuel i st,
    (sb < length (heap st))%nat ->
    skipn i (readArray st sb) = rest ->
    (length rest < fuel)%nat ->
    erase (exportLoop host width height fuel sb i st)
    = cycles host width height i (length (readArray st sb)) rest.
Proof.
  induction rest as [|shot rest IH]; intros fuel i st Hsb Hskip Hfuel;
    (destruct fuel as [|fuel]; [cbn in Hfuel; lia|]);
    cbn [exportLoop cycles].
  - assert (Hlen : (length (readArray st sb) <= i)%nat).
    { apply (f_equal (@length Shot)) in Hskip.
      rewrite length_skipn in Hskip. cbn in Hskip. lia. }
    apply Nat.ltb_ge in Hlen. now rewrite Hlen.
  - assert (Hnth : nth_error (readArray st sb) i = Some shot).
    { rewrite <- (firstn_skipn i (readArray st sb)) at 1.
      assert (Hi : (i <= length (readArray st sb))%nat).
      { apply Nat.nlt_ge. intro Hc.
        rewrite skipn_all2 in Hskip by lia. discriminate. }
      rewrite nth_error_app2; rewrite length_firstn, Nat.min_l by lia; [|lia].
      now rewrite Nat.sub_diag, Hskip. }
    assert (Hlt : (i < length (readArray st sb))%nat).
    { apply nth_error_Some. congruence. }
    apply Nat.ltb_lt in Hlt. rewrite Hlt, Hnth, erase_bind.
    destruct (applyUpdates_keeps sb (updates host i) st Hsb) as [Hrd Hsb'].
    rewrite (IH fuel (S i) _ Hsb'), Hrd; [reflexivity| |cbn in Hfuel; lia].
    rewrite Hrd.
    replace (S i) with (1 + i)%nat by lia.
    now rewrite <- skipn_skipn, Hskip.
Qed.

(** Without a canvas fault an iteration returns. *)
Lemma cycle_returns (i total : nat) (shot : Shot) :
  canvasFault host i = false ->
  snd (cycle host width height i total shot) = Returned tt.
Proof.
  intro Hf. unfold cycle, composite, loadImage. rewrite Hf.
  now destruct (decode host i (imageSrc width height shot)).
Qed.

Lemma cycles_returns (shots : list Shot) :
  forall i total,
    (forall k, canvasFault host k = false) ->
    cycles host width height i total shots
    = (concat (map (fun p => fst (cycle host width height (fst p) total (snd p)))
                   (combine (seq i (length shots)) shots)),
       Returned tt).
Proof.
  induction shots as [|shot rest IH]; intros i total Hf; [reflexivity|].
  cbn [cycles length seq combine map concat fst snd].
  rewrite (IH (S i) total Hf).
  pose proof (cycle_returns i total shot (Hf i)) as Hret.
  destruct (cycle host width height i total shot) as [tr r].
  cbn in Hret. subst r. reflexivity.
Qed.

End LoopFacts.

(** A run that gets past its guard and the set-up, with enough fuel for
    the array it captured. *)
Lemma handleExportVideo_run (host : Host) (fuel : nat) (a : AspectRatio)
      (sb : loc) (st : Store) :
  contextAvailable host = true ->
  recorderAvailable host = true ->
  (sb < length (heap st))%nat ->
  (length (readArray st sb) < fuel)%nat ->
  handleExportVideo host fuel false a sb st
  = match cycles host (fst (surface a)) (snd (surface a)) 0
            (length (readArray st sb)) (readArray st sb) with
    | (tr, Returned _) =>
        (prologue ++ setupTrace host (fst (surface a)) (snd (surface a))
           ++ tr ++ fst (stopRecorder host), Completed)
    | (tr, Thrown) =>
        (prologue ++ (setupTrace host (fst (surface a)) (snd (surface a)) ++ tr)
           ++ catchTrace, Aborted)
    | (tr, OutOfFuel) =>
        (prologue ++ setupTrace host (fst (surface a)) (snd (surface a)) ++ tr,
         Unfinished)
    end.
Proof.
  intros Hctx Hrec Hsb Hfuel.
  unfold handleExportVideo, tryBlock.
  destruct (surface a) as [w h]. cbn [fst snd].
  rewrite Hctx, Hrec.
  pose proof (exportLoop_cycles host w h sb (readArray st sb) fuel 0 st
                Hsb eq_refl Hfuel) as Hloop.
  destruct (exportLoop host w h fuel sb 0 st) as [tr r].
  unfold erase in Hloop. cbn [fst snd] in Hloop. rewrite <- Hloop.
  destruct r; reflexivity.
Qed.

Lemma filter_hold_cycle (host : Host) (w h : Z) (i total : nat) (shot : Shot) :
  canvasFault host i = false ->
  exists body,
    fst (cycle host w h i total shot) = body ++ [Hold RECORD_DURATION]
    /\ filter is_hold body = []
    /\ filter is_stop body = []
    /\ requested body = [i].
Proof.
  intro Hf. unfold cycle, composite, loadImage. rewrite Hf.
  assert (Hcanvas : forall ops,
             filter is_hold (map CanvasCall ops) = []
             /\ filter is_stop (map CanvasCall ops) = []
             /\ requested (map CanvasCall ops) = []).
  { induction ops as [|o ops (IH1 & IH2 & IH3)]; cbn; auto. }
  set (p := js_round _).
  destruct (decode host i (imageSrc w h shot)) as [img|];
    cbv [bind emit ret throw];
    match goal with
    | |- context [map CanvasCall ?o] =>
        destruct (Hcanvas o) as (H1 & H2 & H3); set (ops := map CanvasCall o) in *
    end;
    clearbody ops p; cbn.
  - exists (SetExportProgress p :: ImageRequest i (imageSrc w h shot) :: ops).
    cbn. rewrite H1, H2, H3, ?app_nil_r. auto.
  - exists (SetExportProgress p :: ImageRequest i (imageSrc w h shot)
              :: ConsoleWarn i :: ops).
    cbn. rewrite H1, H2, H3, ?app_nil_r. auto.
Qed.

Lemma requested_app (a b : list event) :
  requested (a ++ b) = requested a ++ requested b.
Proof.
  induction a as [|e a IH]; [reflexivity|].
  destruct e; cbn; now rewrite ?IH.
Qed.

(** Counting over the iterations of a run without canvas faults. *)
Lemma cycles_count (host : Host) (w h : Z) (shots : list Shot) :
  forall i total,
    (forall k, canvasFault host k = false) ->
    let tr := concat (map (fun p => fst (cycle host w h (fst p) total (snd p)))
                          (combine (seq i (length shots)) shots)) in
    length (filter is_hold tr) = length shots
    /\ filter is_stop tr = []
    /\ requested tr = seq i (length shots).
Proof.
  induction shots as [|shot rest IH]; intros i total Hf; [now cbn|].
  cbn [length seq combine map concat fst snd].
  destruct (filter_hold_cycle host w h i total shot (Hf i))
    as (body & Hbody & Hh & Hs & Hr).
  destruct (IH (S i) total Hf) as (IHh & IHs & IHr).
  rewrite Hbody. rewrite !filter_app, !requested_app, !length_app.
  rewrite Hh, Hs, Hr, IHh, IHs, IHr. cbn. auto.
Qed.

(** What one iteration does, fault or not. *)
Lemma cycle_trace (host : Host) (w h : Z) (i total : nat) (shot : Shot) :
  let p := js_round ((inject_Z (Z.of_nat i) / inject_Z (Z.of_nat total)) * 100) in
  let src := imageSrc w h shot in
  let img := match decode host i src with
             | Loaded img => img
             | LoadFailed => {| naturalWidth := 0; imgWidth := 0; imgHeight := 0 |}
             end in
  let warn := match decode host i src with
              | Loaded _ => []
              | LoadFailed => [ConsoleWarn i]
              end in
  cycle host w h i total shot
  = if canvasFault host i
    then (SetExportProgress p :: ImageRequest i src :: warn, Thrown)
    else (SetExportProgress p :: ImageRequest i src :: warn
            ++ map CanvasCall
                 (Compositor.compositeFrame (measure host) w h img
                    (dialogue shot))
            ++ [Hold RECORD_DURATION],
          Returned tt).
Proof.
  intros p src img warn. subst p src img warn.
  unfold cycle, composite, loadImage.
  destruct (canvasFault host i);
    destruct (decode host i (imageSrc w h shot)) as [img|];
    cbv [bind emit ret throw]; cbn [app]; rewrite ?app_nil_r; reflexivity.
Qed.

(** [forEach] visits the lines with their indices. *)
Lemma drawLines_indexed (ls : list jsstring) :
  forall (k : nat) (x y lh : Q),
    Compositor.drawLines ls (Z.of_nat k) x y lh
    = flat_map (fun p => [ StrokeText (snd p) x
                             (y + inject_Z (Z.of_nat (fst p)) * lh);
                           FillText (snd p) x
                             (y + inject_Z (Z.of_nat (fst p)) * lh) ])
               (combine (seq k (length ls)) ls).
Proof.
  induction ls as [|l rest IH]; intros k x y lh; [reflexivity|].
  cbn [Compositor.drawLines length seq combine flat_map fst snd app].
  replace (Z.of_nat k + 1)%Z with (Z.of_nat (S k)) by lia.
  now rewrite IH.
Qed.

Lemma nth_error_combine_seq {A} (l : list A) :
  forall (k i : nat) (x : A),
    nth_error l i = Some x ->
    nth_error (combine (seq k (length l)) l) i = Some ((k + i)%nat, x).
Proof.
  induction l as [|y l IH]; intros k [|i] x Hx; try discriminate.
  - cbn in *. injection Hx as ->. now rewrite Nat.add_0_r.
  - cbn [length seq combine nth_error] in *.
    rewrite (IH (S k) i x Hx). f_equal. f_equal. lia.
Qed.

(** C1.  A run started while no export is in progress, in a browser that
    provides the context and the recorder and raises nothing, on a
    captured array of [N] shots: it completes; its trace is the set-up,
    then the [N] composite-and-hold iterations of the shots in array
    order, then [recorder.stop()] and what [onstop] does.  Each
    iteration ends with its hold; there are [N] holds, the frames
    requested are those of shots [0 .. N-1] in order, and [stop()] is
    called once, after the last iteration.  The iteration of shot [i]
    is, call by call: the progress update, the image request, the
    warning if the load failed, the canvas calls that paint the frame
    (black background; the image in its cover rectangle, or the
    placeholder; for a shot with dialogue the gradient strap, the text
    settings and a stroke and a fill for each wrapped line), and the
    hold of 3000 ms. *)
Theorem export_one_cycle_per_shot (host : Host) (fuel : nat) (a : AspectRatio)
        (sb : loc) (st : Store)
        (Hctx : contextAvailable host = true)
        (Hrec : recorderAvailable host = true)
        (Hquiet : forall k, canvasFault host k = false)
        (Hsb : (sb < length (heap st))%nat)
        (Hfuel : (length (readArray st sb) < fuel)%nat) :
  let shots := readArray st sb in
  let w := fst (surface a) in
  let h := snd (surface a) in
  let run := handleExportVideo host fuel false a sb st in
  snd run = Completed
  /\ fst run
     = (prologue ++ setupTrace host w h)
         ++ concat (cycleTraces host w h shots)
         ++ RecorderStop
            :: [ Download (stopTime host)
                   (concat (filter (fun c => (0 <? length c)%nat) (encoded host)));
                 SetIsExporting false;
                 SetExportProgress 0 ]
  /\ length (cycleTraces host w h shots) = length shots
  /\ Forall (fun c => exists body,
                 c = body ++ [Hold RECORD_DURATION]
                 /\ filter is_hold body = [] /\ filter is_stop body = [])
            (cycleTraces host w h shots)
  /\ length (filter is_hold (fst run)) = length shots
  /\ requested (fst run) = seq 0 (length shots)
  /\ length (filter is_stop (fst run)) = 1%nat
  /\ forall (i : nat) (shot : Shot),
       nth_error shots i = Some shot ->
       let src := imageSrc w h shot in
       let img := match decode host i src with
                  | Loaded im => im
                  | LoadFailed =>
                      {| naturalWidth := 0; imgWidth := 0; imgHeight := 0 |}
                  end in
       let warn := match decode host i src with
                   | Loaded _ => []
                   | LoadFailed => [ConsoleWarn i]
                   end in
       let W := inject_Z w in
       let H := inject_Z h in
       let picture :=
         if (naturalWidth img >? 0)%Z then
           [ DrawImage img
               (Compositor.offsetX (Compositor.coverFit img w h))
               (Compositor.offsetY (Compositor.coverFit img w h))
               (Compositor.drawW (Compositor.coverFit img w h))
               (Compositor.drawH (Compositor.coverFit img w h)) ]
         else
           [ SetFillStyle Grey333; FillRect 0 0 W H; SetFillStyle White;
             SetFontMissing; SetTextAlignCenter;
             FillTextMissing (W / 2) (H / 2) ] in
       let subtitles :=
         match dialogue shot with
         | Some d =>
             if truthy (dialogue shot) then
               let px := Qfloor (H * 0.04) in
               let lh := inject_Z px * 1.35 in
               let lines := wrapLines (measure host px) (W * 0.85) d in
               let y0 :=
                 H - H * 0.08 - inject_Z (Z.of_nat (length lines)) * lh in
               [ SetFillStyle
                   (LinearGradient 0 (H - H * 0.25) 0 H
                      [(0, 0); (0.3, 0.6); (1, 0.9)]);
                 FillRect 0 (H - H * 0.25) W (H * 0.25);
                 SetFont px; SetFillStyle White; SetTextAlignCenter;
                 SetTextBaselineTop; SetStrokeStyle Black; SetLineWidth 3;
                 SetFont px ]
               ++ flat_map
                    (fun p =>
                       [ StrokeText (snd p) (W / 2)
                           (y0 + inject_Z (Z.of_nat (fst p)) * lh);
                         FillText (snd p) (W / 2)
                           (y0 + inject_Z (Z.of_nat (fst p)) * lh) ])
                    (combine (seq 0 (length lines)) lines)
             else []
         | None => []
         end in
       nth_error (cycleTraces host w h shots) i
       = Some (SetExportProgress
                 (js_round ((inject_Z (Z.of_nat i)
                             / inject_Z (Z.of_nat (length shots))) * 100))
               :: ImageRequest i src
               :: warn
               ++ map CanvasCall
                    ([SetFillStyle Black; FillRect 0 0 W H]
                       ++ picture ++ subtitles)
               ++ [Hold RECORD_DURATION]).
Proof.
  intros shots w h run.
  assert (Hrun : run
                 = ((prologue ++ setupTrace host w h)
                      ++ concat (cycleTraces host w h shots)
                      ++ fst (stopRecorder host), Completed)).
  { subst run. rewrite handleExportVideo_run by assumption.
    fold shots w h. rewrite cycles_returns by assumption.
    unfold cycleTraces. now rewrite <- app_assoc. }
  destruct (cycles_count host w h shots 0 (length shots) Hquiet)
    as (Hh & Hs & Hr).
  fold (cycleTraces host w h shots) in Hh, Hs, Hr.
  rewrite Hrun. cbn [fst snd].
  split; [reflexivity|]. split; [reflexivity|].
  split; [|split; [|split; [|split; [|split]]]].
  - unfold cycleTraces. now rewrite length_map, length_combine, length_seq, Nat.min_id.
  - unfold cycleTraces. apply Forall_forall. intros c Hc.
    apply in_map_iff in Hc. destruct Hc as ([i shot] & <- & _). cbn [fst snd].
    destruct (filter_hold_cycle host w h i (length shots) shot (Hquiet i))
      as (body & Hb & Hbh & Hbs & _).
    now exists body.
  - rewrite !filter_app, !length_app, Hh. cbn. lia.
  - rewrite !requested_app, Hr. cbn. now rewrite app_nil_r.
  - rewrite !filter_app, !length_app, Hs. reflexivity.
  - intros i shot Hnth. cbv zeta.
    unfold cycleTraces.
    rewrite nth_error_map, (nth_error_combine_seq shots 0 i shot Hnth).
    cbn [option_map fst snd Nat.add].
    rewrite cycle_trace. cbv zeta. rewrite Hquiet. cbn [fst].
    do 4 f_equal.
    unfold Compositor.compositeFrame, Compositor.drawPicture.
    rewrite <- app_assoc. do 2 f_equal.
    destruct (dialogue shot) as [d|]; [|reflexivity].
    destruct (truthy (Some d)); [|reflexivity].
    unfold Compositor.drawSubtitles, Compositor.drawWrappedText,
      Compositor.startY, Compositor.lineCount.
    rewrite countLines_length.
    change 0%Z with (Z.of_nat 0).
    rewrite drawLines_indexed. reflexivity.
Qed.

Lemma export_one_cycle_per_shot_witness :
  (contextAvailable Samples.hostOk = true
   /\ recorderAvailable Samples.hostOk = true
   /\ (forall k, canvasFault Samples.hostOk k = false)
   /\ (0 < length (heap Samples.store2))%nat
   /\ (length (readArray Samples.store2 0%nat) < 3)%nat)
  /\ length (filter is_hold
               (fst (handleExportVideo Samples.hostOk 3%nat false SQUARE 0%nat
                       Samples.store2))) = 2%nat
  /\ length (filter is_stop
               (fst (handleExportVideo Samples.hostOk 3%nat false SQUARE 0%nat
                       Samples.store2))) = 1%nat
  /\ nth_error (cycleTraces Samples.hostOk 1080 1080
                  [Samples.shotA; Samples.shotB]) 1
     = Some [ SetExportProgress 50;
              ImageRequest 1 (PlaceholderUrl 1080 1080);
              CanvasCall (SetFillStyle Black);
              CanvasCall (FillRect 0 0 1080 1080);
              CanvasCall
                (DrawImage
                   {| naturalWidth := 1600; imgWidth := 1600;
                      imgHeight := 900 |}
                   ((1080 - 1080 * (1600 / 900)) / 2) 0
                   (1080 * (1600 / 900)) 1080);
              Hold 3000 ].
Proof.
  split.
  - repeat split; cbn; lia.
  - pose proof (export_one_cycle_per_shot
                  Samples.hostOk 3%nat SQUARE 0%nat Samples.store2
                  eq_refl eq_refl (fun _ => eq_refl)
                  (Nat.lt_0_1 : (0 < length (heap Samples.store2))%nat)
                  (Nat.lt_succ_diag_r 2)) as H.
    cbv zeta in H. destruct H as (_ & _ & _ & _ & Hh & _ & Hs & Hcalls).
    split; [exact Hh|]. split; [exact Hs|].
    exact (Hcalls 1%nat Samples.shotB eq_refl).
Defined.

(** C9.  With an empty captured array, in a browser that provides the
    context and the recorder: the run completes, the loop body is not
    entered (no frame request, no canvas call, no hold), the recorder is
    started and stopped right after, and the blob made of the chunks the
    host delivered (nothing, if it delivered none) is saved. *)
Theorem export_empty_storyboard (host : Host) (fuel : nat) (a : AspectRatio)
        (sb : loc) (st : Store)
        (Hctx : contextAvailable host = true)
        (Hrec : recorderAvailable host = true)
        (Hempty : readArray st sb = [])
        (Hfuel : (0 < fuel)%nat) :
  let w := fst (surface a) in
  let h := snd (surface a) in
  handleExportVideo host fuel false a sb st
  = ([ SetIsExporting true; SetExportProgress 0; SetIsPlaying false;
       CreateCanvas w h; CaptureStream 30;
       NewRecorder (vp9Supported host) 5000000;
       RecorderStart;
       RecorderStop;
       Download (stopTime host)
         (concat (filter (fun c => (0 <? length c)%nat) (encoded host)));
       SetIsExporting false;
       SetExportProgress 0 ],
     Completed)
  /\ (encoded host = [] ->
      In (Download (stopTime host) [])
         (fst (handleExportVideo host fuel false a sb st))).
Proof.
  intros w h.
  assert (Hrun : handleExportVideo host fuel false a sb st
                 = ([ SetIsExporting true; SetExportProgress 0; SetIsPlaying false;
                      CreateCanvas w h; CaptureStream 30;
                      NewRecorder (vp9Supported host) 5000000;
                      RecorderStart;
                      RecorderStop;
                      Download (stopTime host)
                        (concat (filter (fun c => (0 <? length c)%nat)
                                        (encoded host)));
                      SetIsExporting false;
                      SetExportProgress 0 ],
                    Completed)).
  { subst w h. unfold handleExportVideo, tryBlock.
    destruct (surface a) as [w h]. rewrite Hctx, Hrec.
    destruct fuel as [|fuel]; [lia|].
    cbn [exportLoop]. rewrite Hempty. reflexivity. }
  split; [exact Hrun|].
  intro Henc. rewrite Hrun, Henc. cbn. tauto.
Qed.

Lemma export_empty_storyboard_witness :
  (contextAvailable Samples.hostOk = true
   /\ recorderAvailable Samples.hostOk = true
   /\ readArray Samples.store0 0%nat = []
   /\ (0 < 1)%nat)
  /\ snd (handleExportVideo Samples.hostOk 1%nat false LANDSCAPE 0%nat
            Samples.store0) = Completed.
Proof.
  split.
  - repeat split. lia.
  - pose proof (export_empty_storyboard
                  Samples.hostOk 1%nat LANDSCAPE 0%nat Samples.store0
                  eq_refl eq_refl eq_refl Nat.lt_0_1) as H.
    cbv zeta in H. destruct H as [H _]. now rewrite H.
Defined.

(** C4, the run at which the claim fails.  One shot, and a canvas call
    raises while it is drawn: the exception reaches the [catch] block,
    which logs, clears [isExporting] and alerts; the recorder was
    started and [stop()] is never called on it. *)
Lemma export_fault_leaves_recorder_started :
  handleExportVideo Samples.hostFaulty 2%nat false LANDSCAPE 0%nat Samples.store1
  = ([ SetIsExporting true; SetExportProgress 0; SetIsPlaying false;
       CreateCanvas 1920 1080; CaptureStream 30;
       NewRecorder true 5000000;
       RecorderStart;
       SetExportProgress 0;
       ImageRequest 0 (ShotUrl [97]%N);
       ConsoleError; SetIsExporting false; Alert ],
     Aborted)
  /\ filter is_start
       (fst (handleExportVideo Samples.hostFaulty 2%nat false LANDSCAPE 0%nat
               Samples.store1)) = [RecorderStart]
  /\ filter is_stop
       (fst (handleExportVideo Samples.hostFaulty 2%nat false LANDSCAPE 0%nat
               Samples.store1)) = [].
Proof.
  repeat split; vm_compute; reflexivity.
Qed.

Lemma no_stop_bind {A} (c : Run unit) (m : Run A) :
  filter is_stop (fst c) = [] ->
  filter is_stop (fst m) = [] ->
  filter is_stop (fst (c ;;; m)) = [].
Proof.
  destruct c as [tr [[]| |]]; destruct m as [tr' r]; cbn [bind fst];
    intros Hc Hm; rewrite ?filter_app, ?Hc; cbn in *; now rewrite ?Hm.
Qed.

Lemma cycle_no_stop (host : Host) (w h : Z) (i total : nat) (shot : Shot) :
  filter is_stop (fst (cycle host w h i total shot)) = [].
Proof.
  assert (Hcanvas : forall ops, filter is_stop (map CanvasCall ops) = []).
  { induction ops as [|o ops IH]; cbn; auto. }
  unfold cycle, composite, loadImage.
  set (p := js_round _).
  destruct (canvasFault host i);
    destruct (decode host i (imageSrc w h shot)) as [img|];
    cbv [bind emit ret throw]; cbn [fst snd app filter is_stop];
    rewrite ?filter_app, ?Hcanvas; reflexivity.
Qed.

Lemma exportLoop_no_stop (host : Host) (w h : Z) (sb : loc) (fuel : nat) :
  forall i st,
    filter is_stop (fst (exportLoop host w h fuel sb i st)) = [].
Proof.
  induction fuel as [|fuel IH]; intros i st; cbn [exportLoop]; [reflexivity|].
  destruct (i <? length (readArray st sb))%nat; [|reflexivity].
  destruct (nth_error (readArray st sb) i); [|reflexivity].
  apply no_stop_bind; [apply cycle_no_stop | apply IH].
Qed.

(** No aborted run calls [recorder.stop()]: the call is the last
    statement of the [try] block and the [catch] block has none. *)
Lemma aborted_run_never_stops (host : Host) (fuel : nat) (b : bool)
      (a : AspectRatio) (sb : loc) (st : Store) :
  snd (handleExportVideo host fuel b a sb st) = Aborted ->
  filter is_stop (fst (handleExportVideo host fuel b a sb st)) = [].
Proof.
  unfold handleExportVideo, tryBlock.
  destruct b; [discriminate|].
  destruct (surface a) as [w h].
  pose proof (exportLoop_no_stop host w h sb fuel 0 st) as Hloop.
  destruct (contextAvailable host); [|reflexivity].
  destruct (recorderAvailable host); [|reflexivity].
  destruct (exportLoop host w h fuel sb 0 st) as [tr [st'| |]];
    cbn in *; intro H; try discriminate H.
  rewrite filter_app, Hloop. reflexivity.
Qed.

Section Snapshot.

Variable host : Host.
Variables width height : Z.
Variable sb : loc.

(** Two runs of the loop from stores that agree on the captured
    array, one with the application's updates and one without, do the
    same. *)
Lemma exportLoop_quiet (fuel : nat) :
  forall i st1 st2,
    (sb < length (heap st1))%nat ->
    (sb < length (heap st2))%nat ->
    readArray st1 sb = readArray st2 sb ->
    erase (exportLoop host width height fuel sb i st1)
    = erase (exportLoop (quiet host) width height fuel sb i st2).
Proof.
  induction fuel as [|fuel IH]; intros i st1 st2 H1 H2 Hrd;
    cbn [exportLoop]; [reflexivity|].
  rewrite <- Hrd.
  destruct (i <? length (readArray st1 sb))%nat; [|reflexivity].
  destruct (nth_error (readArray st1 sb) i) as [shot|]; [|reflexivity].
  rewrite !erase_bind.
  change (cycle (quiet host) width height i (length (readArray st1 sb)) shot)
    with (cycle host width height i (length (readArray st1 sb)) shot).
  destruct (applyUpdates_keeps sb (updates host i) st1 H1) as [Hk1 Hl1].
  rewrite (IH (S i) (applyUpdates (updates host i) st1)
              (applyUpdates (updates (quiet host) i) st2));
    [reflexivity|assumption|assumption|].
  cbn. congruence.
Qed.

End Snapshot.

(** C5.  The handler reads the array that its render bound to
    [storyboard].  Whatever [setShots] updates the application makes
    while the run is suspended, the run is the one that would happen
    with no update at all; with enough fuel its iterations are those
    over the array as it stood when the run started. *)
Theorem export_unaffected_by_updates (host : Host) (fuel : nat) (b : bool)
        (a : AspectRatio) (sb : loc) (st : Store)
        (Hsb : (sb < length (heap st))%nat) :
  handleExportVideo host fuel b a sb st
  = handleExportVideo (quiet host) fuel b a sb st
  /\ ((length (readArray st sb) < fuel)%nat ->
      erase (exportLoop host (fst (surface a)) (snd (surface a)) fuel sb 0 st)
      = cycles host (fst (surface a)) (snd (surface a)) 0
          (length (readArray st sb)) (readArray st sb)).
Proof.
  split.
  - unfold handleExportVideo, tryBlock.
    destruct b; [reflexivity|].
    destruct (surface a) as [w h].
    pose proof (exportLoop_quiet host w h sb fuel 0 st st Hsb Hsb eq_refl) as He.
    change (contextAvailable (quiet host)) with (contextAvailable host).
    change (recorderAvailable (quiet host)) with (recorderAvailable host).
    change (vp9Supported (quiet host)) with (vp9Supported host).
    change (stopRecorder (quiet host)) with (stopRecorder host).
    destruct (contextAvailable host); [|reflexivity].
    destruct (recorderAvailable host); [|reflexivity].
    destruct (exportLoop host w h fuel sb 0 st) as [tr1 r1].
    destruct (exportLoop (quiet host) w h fuel sb 0 st) as [tr2 r2].
    unfold erase in He. cbn [fst snd] in He.
    injection He as Htr Hr. subst tr2.
    destruct r1, r2; try discriminate Hr; reflexivity.
  - intro Hfuel. now apply exportLoop_cycles.
Qed.

Lemma export_unaffected_by_updates_witness :
  (0 < length (heap Samples.store2))%nat
  /\ updates Samples.hostBusy 0 <> updates (quiet Samples.hostBusy) 0
  /\ requested
       (fst (handleExportVideo Samples.hostBusy 3%nat false PORTRAIT 0%nat
               Samples.store2))
     = [0; 1]%nat.
Proof.
  split; [exact Nat.lt_0_1|]. split; [discriminate|].
  destruct (export_unaffected_by_updates
              Samples.hostBusy 3%nat false PORTRAIT 0%nat Samples.store2
              Nat.lt_0_1) as [H _].
  rewrite H. vm_compute. reflexivity.
Defined.

(* ------------------------------------------------------------------ *)
(** ** The playback clock *)

Import Playback.

(** Unchanged dependencies: same flags, same index, same length. *)
Lemma depsChanged_same (len newLen : Z) (old new : State) :
  depsChanged len newLen old new = false ->
  isPlaying new = isPlaying old
  /\ currentIndex new = currentIndex old
  /\ newLen = len
  /\ isExporting new = isExporting old.
Proof.
  unfold depsChanged. intro H.
  apply orb_false_elim in H. destruct H as [H He].
  apply orb_false_elim in H. destruct H as [H Hl].
  apply orb_false_elim in H. destruct H as [Hp Hi].
  apply negb_false_iff, eqb_prop in Hp.
  apply negb_false_iff, Z.eqb_eq in Hi.
  apply negb_false_iff, Z.eqb_eq in Hl.
  apply negb_false_iff, eqb_prop in He.
  repeat split; congruence.
Qed.

Lemma depsChanged_refl (len : Z) (s : State) :
  depsChanged len len s s = false.
Proof.
  unfold depsChanged. now rewrite !eqb_reflx, !Z.eqb_refl.
Qed.

Lemma rerender_index (len newLen now : Z) (old new : State) :
  currentIndex (rerender len newLen now old new) = currentIndex new.
Proof.
  unfold rerender, effectBody, withInterval.
  destruct (depsChanged len newLen old new); [|reflexivity].
  cbn. now destruct (isPlaying new && negb (isExporting new)).
Qed.

Lemma effectBody_closure (len now : Z) (s : State) :
  closure_inv len (effectBody len now (withInterval None s)).
Proof.
  unfold effectBody, withInterval, closure_inv. cbn.
  destruct (isPlaying s && negb (isExporting s)); cbn.
  - intros t [= <-]. now split.
  - discriminate.
Qed.

(** After any render a live interval has the index and the length of
    that render. *)
Lemma rerender_closure (len newLen now : Z) (old new : State) :
  (currentIndex new = currentIndex old ->
   forall t, interval new = Some t ->
             capIndex t = currentIndex old /\ capLength t = len) ->
  closure_inv newLen (rerender len newLen now old new).
Proof.
  intro Hcap. unfold rerender.
  destruct (depsChanged len newLen old new) eqn:Hd;
    [apply effectBody_closure|].
  destruct (depsChanged_same _ _ _ _ Hd) as (_ & Hi & Hl & _).
  intros t Ht. rewrite Hi, Hl. now apply Hcap.
Qed.

(** A handler that leaves the index alone leaves the interval alone
    or clears it. *)
Lemma handler_interval (len : Z) (a : action) (now : Z) (s : State) :
  currentIndex (handler len a now s) = currentIndex s ->
  interval (handler len a now s) = interval s
  \/ interval (handler len a now s) = None.
Proof.
  destruct a; cbn [handler]; intro Hidx; try (now left).
  - destruct (interval s) as [t|] eqn:Ht; [|now left].
    unfold tickBody in *.
    destruct (Qle_bool 100 _); [|now left].
    destruct (capIndex t <? capLength t - 1)%Z; cbn in *; [lia|now right].
  - unfold handleJump. destruct (isExporting s); now left.
  - unfold togglePlay. destruct (isExporting s); now left.
  - unfold handleNext, handleJump.
    destruct (currentIndex s <? len - 1)%Z; [|now left].
    destruct (isExporting s); now left.
  - unfold handlePrev, handleJump.
    destruct (currentIndex s >? 0)%Z; [|now left].
    destruct (isExporting s); now left.
  - unfold exportBegin. destruct (isExporting s); now left.
Qed.

Lemma step_closure (len : Z) (a : action) (now : Z) (s : State) :
  closure_inv len s -> closure_inv len (step len a now s).
Proof.
  intro Hcap. unfold step. apply rerender_closure.
  intros Hidx t Ht.
  destruct (handler_interval len a now s Hidx) as [He|He];
    rewrite He in Ht; [now apply Hcap|discriminate].
Qed.

Lemma replace_closure (len newLen now : Z) (s : State) :
  closure_inv len s ->
  closure_inv newLen (replaceStoryboard len newLen now s).
Proof.
  intro Hcap. unfold replaceStoryboard. apply rerender_closure.
  intros _ t Ht. now apply Hcap.
Qed.

(** In every reachable state, also after the storyboard was replaced,
    the interval callback compares the current index with the current
    length. *)
Lemma reachable_closure (len : Z) (s : State) :
  reachable len s -> closure_inv len s.
Proof.
  induction 1 as [len now | len s a now _ IH _ | len newLen s now _ IH _].
  - unfold mount, effectBody, closure_inv. cbn.
    intros t [= <-]. now split.
  - now apply step_closure.
  - now apply replace_closure.
Qed.

(** No handler moves an index that is inside the storyboard out of
    it. *)
Lemma handler_range (len : Z) (a : action) (now : Z) (s : State) :
  closure_inv len s -> enabled len a ->
  (0 <= currentIndex s <= len - 1)%Z ->
  (0 <= currentIndex (handler len a now s) <= len - 1)%Z.
Proof.
  intros Hcap Hen Hr. destruct a; cbn [handler]; try assumption.
  - destruct (interval s) as [t|] eqn:Ht; [|assumption].
    destruct (Hcap t Ht) as [Hci Hcl].
    unfold tickBody.
    destruct (Qle_bool 100 _); [|assumption].
    destruct (capIndex t <? capLength t - 1)%Z eqn:Hlt; cbn; [|assumption].
    apply Z.ltb_lt in Hlt. lia.
  - unfold handleJump. destruct (isExporting s); cbn; [assumption|].
    cbn in Hen. lia.
  - unfold togglePlay. destruct (isExporting s); cbn; [assumption|].
    destruct (_ && _ && _); [lia|assumption].
  - unfold handleNext, handleJump.
    destruct (currentIndex s <? len - 1)%Z eqn:Hlt; [|assumption].
    apply Z.ltb_lt in Hlt.
    destruct (isExporting s); cbn; [assumption|lia].
  - unfold handlePrev, handleJump.
    destruct (currentIndex s >? 0)%Z eqn:Hgt; [|assumption].
    apply Z.gtb_lt in Hgt.
    destruct (isExporting s); cbn; [assumption|lia].
  - unfold exportBegin. now destruct (isExporting s).
Qed.

Lemma step_inv (len : Z) (a : action) (now : Z) (s : State) :
  clock_inv len s -> enabled len a -> clock_inv len (step len a now s).
Proof.
  intros [Hr Hcap] Hen. split.
  - unfold step. rewrite rerender_index. now apply handler_range.
  - now apply step_closure.
Qed.

Lemma currentShotDefined_iff (len : Z) (s : State) :
  currentShotDefined len s = true <-> (0 <= currentIndex s <= len - 1)%Z.
Proof.
  unfold currentShotDefined.
  rewrite andb_true_iff, Z.leb_le, Z.ltb_lt. lia.
Qed.

Lemma committed_inv (len : Z) (s : State) :
  committed len s -> clock_inv len s.
Proof.
  induction 1 as [len now Hshot | len s a now _ IH Hen
                 | len newLen s now _ IH Hshot].
  - split; [now apply currentShotDefined_iff|].
    unfold mount, effectBody. cbn. intros t [= <-]. now split.
  - now apply step_inv.
  - destruct IH as [Hr Hcap]. split.
    + unfold replaceStoryboard. rewrite rerender_index.
      now apply currentShotDefined_iff.
    + now apply replace_closure.
Qed.

Lemma committed_reachable (len : Z) (s : State) :
  committed len s -> reachable len s.
Proof.
  induction 1 as [len now Hshot | len s a now Hf IH Hen
                 | len newLen s now Hf IH Hshot].
  - apply reach_mount.
  - now apply reach_step.
  - apply reach_replace; [assumption|].
    apply currentShotDefined_iff in Hshot. lia.
Qed.

(** X25.  The end of the timeline, in every state of the clock (the
    storyboard may have been replaced on the way): a tick that finds
    the index at the last shot and the computed progress at 100 or more
    switches playing off, sets the progress to 100, keeps the index and
    clears the interval, so that later ticks change nothing. *)
Theorem tick_at_last_shot_stops (len : Z) (s : State) (now : Z)
        (Hreach : reachable len s)
        (Harmed : interval s <> None)
        (Hlast : currentIndex s = (len - 1)%Z)
        (Hfull : 100 <= newProgress now s) :
  let s' := step len Tick now s in
  currentIndex s' = (len - 1)%Z
  /\ isPlaying s' = false
  /\ progress s' = 100
  /\ interval s' = None
  /\ forall now', step len Tick now' s' = s'.
Proof.
  pose proof (reachable_closure len s Hreach) as Hcap.
  destruct (interval s) as [t|] eqn:Ht; [clear Harmed|congruence].
  destruct (Hcap t Ht) as [Hci Hcl].
  assert (Hh : handler len Tick now s
               = {| currentIndex := currentIndex s; isPlaying := false;
                    progress := 100; isExporting := isExporting s;
                    startTime := startTime s; interval := None |}).
  { cbn [handler]. rewrite Ht. unfold tickBody.
    apply Qle_bool_iff in Hfull. unfold newProgress in Hfull.
    rewrite Hfull.
    replace (capIndex t <? capLength t - 1)%Z with false; [reflexivity|].
    symmetry. apply Z.ltb_ge. lia. }
  assert (Hs : step len Tick now s
               = {| currentIndex := currentIndex s; isPlaying := false;
                    progress := 100; isExporting := isExporting s;
                    startTime := startTime s; interval := None |}).
  { unfold step. rewrite Hh. unfold rerender.
    destruct (depsChanged len len s _); reflexivity. }
  cbv zeta. rewrite Hs. cbn.
  repeat split; try assumption.
  intro now'. unfold step. cbn [handler interval]. unfold rerender.
  now rewrite depsChanged_refl.
Qed.

Lemma tick_at_last_shot_stops_witness :
  (reachable 3 (step 3 (Jump 2) 100 (mount 3 0))
   /\ interval (step 3 (Jump 2) 100 (mount 3 0)) <> None
   /\ currentIndex (step 3 (Jump 2) 100 (mount 3 0)) = (3 - 1)%Z
   /\ 100 <= newProgress 4100 (step 3 (Jump 2) 100 (mount 3 0)))
  /\ currentIndex (step 3 Tick 4100 (step 3 (Jump 2) 100 (mount 3 0))) = 2%Z
  /\ isPlaying (step 3 Tick 4100 (step 3 (Jump 2) 100 (mount 3 0))) = false
  /\ progress (step 3 Tick 4100 (step 3 (Jump 2) 100 (mount 3 0))) = 100
  /\ interval (step 3 Tick 4100 (step 3 (Jump 2) 100 (mount 3 0))) = None.
Proof.
  assert (Hreach : reachable 3 (step 3 (Jump 2) 100 (mount 3 0))).
  { apply reach_step; [apply reach_mount | cbn; lia]. }
  assert (Harmed : interval (step 3 (Jump 2) 100 (mount 3 0)) <> None)
    by (vm_compute; discriminate).
  assert (Hfull : 100 <= newProgress 4100 (step 3 (Jump 2) 100 (mount 3 0)))
    by (vm_compute; discriminate).
  split; [repeat split; assumption|].
  destruct (tick_at_last_shot_stops 3 _ 4100 Hreach Harmed eq_refl Hfull)
    as (Hi & Hp & Hg & Ht & _).
  repeat split; assumption.
Defined.

(** X26.  In every state the editor commits the index is inside the
    storyboard, and no tick and no user action moves it below 0 or
    beyond the last shot: the render that follows an event always finds
    its shot. *)
Theorem index_stays_in_storyboard (len : Z) (s : State)
        (Hfit : committed len s) :
  (0 <= currentIndex s <= len - 1)%Z
  /\ forall a now, enabled len a ->
                   (0 <= currentIndex (step len a now s) <= len - 1)%Z
                   /\ currentShotDefined len (step len a now s) = true.
Proof.
  pose proof (committed_inv len s Hfit) as Hinv.
  split; [apply Hinv|].
  intros a now Hen.
  destruct (step_inv len a now s Hinv Hen) as [Hr _].
  split; [exact Hr|]. now apply currentShotDefined_iff.
Qed.

Lemma index_stays_in_storyboard_witness :
  committed 3 (replaceStoryboard 5 3 300 (step 5 (Jump 2) 100 (mount 5 0)))
  /\ (0 <= currentIndex
             (step 3 Next 400
                (replaceStoryboard 5 3 300 (step 5 (Jump 2) 100 (mount 5 0))))
      <= 3 - 1)%Z.
Proof.
  assert (Hfit : committed 3
                   (replaceStoryboard 5 3 300
                      (step 5 (Jump 2) 100 (mount 5 0)))).
  { apply commit_replace; [|reflexivity].
    apply commit_step; [apply commit_mount; reflexivity | cbn; lia]. }
  split; [exact Hfit|].
  exact (proj1 (proj2 (index_stays_in_storyboard 3 _ Hfit) Next 400%Z I)).
Defined.

(** C8, the run at which the claim fails.  The editor is mounted on
    three shots and the user jumps to the third, which is committed;
    the parent then renders the editor with a storyboard of one shot.
    The component keeps its index: the render runs with the index at 2
    while the only valid index is 0, [storyboard[currentIndex]] is
    undefined, and the render raises. *)
Lemma index_overflows_after_shorter_storyboard :
  committed 3 (step 3 (Jump 2) 100 (mount 3 0))
  /\ currentIndex (step 3 (Jump 2) 100 (mount 3 0)) = 2%Z
  /\ ~ (currentIndex (step 3 (Jump 2) 100 (mount 3 0)) <= 1 - 1)%Z
  /\ currentShotDefined 1 (step 3 (Jump 2) 100 (mount 3 0)) = false
  /\ receiveStoryboard 3 1 200 (step 3 (Jump 2) 100 (mount 3 0)) = None.
Proof.
  split.
  - apply commit_step; [apply commit_mount; reflexivity | cbn; lia].
  - split; [reflexivity|]. split; [cbn; lia|]. split; reflexivity.
Qed.

(* ------------------------------------------------------------------ *)
(** ** More on the wrapper *)

Import WrapShape.

Lemma chained_snoc (R : jsstring -> jsstring -> Prop) (ls : list jsstring) :
  forall a b,
    chained R (ls ++ [a]) -> R a b -> chained R ((ls ++ [a]) ++ [b]).
Proof.
  induction ls as [|l ls IH]; intros a b Hc HR.
  - cbn. auto.
  - cbn [app] in *. destruct ls as [|l' ls'].
    + cbn in *. intuition.
    + cbn [app chained] in *. destruct Hc as [H1 H2].
      split; [assumption|]. now apply (IH a b).
Qed.

Lemma chained_last (R : jsstring -> jsstring -> Prop) (ls : list jsstring) :
  forall a a',
    chained R (ls ++ [a]) ->
    (forall p, R p a -> R p a') ->
    chained R (ls ++ [a']).
Proof.
  induction ls as [|l ls IH]; intros a a' Hc HR.
  - cbn. exact I.
  - cbn [app] in *. destruct ls as [|l' ls'].
    + cbn in *. intuition.
    + cbn [app chained] in *. destruct Hc as [H1 H2].
      split; [assumption|]. now apply (IH a a').
Qed.

Section WrapperShape.

Variable measureText : jsstring -> Q.
Variable maxWidth : Q.

Abbreviation wloop := (wrapLoop measureText maxWidth).

(** While the loop runs, the lines laid out so far are chained by
    [overflowed], none of them is empty, and the current line is empty
    only before the first code unit. *)
Lemma wrapLoop_shape (chars : list code_unit) :
  forall n line lines,
    chained (overflowed measureText maxWidth) (lines ++ [line]) ->
    Forall (fun l => l <> []) lines ->
    ((n = 0%nat /\ line = [] /\ lines = []) \/ ((0 < n)%nat /\ line <> [])) ->
    chained (overflowed measureText maxWidth)
      (snd (wloop chars n line lines) ++ [fst (wloop chars n line lines)])
    /\ Forall (fun l => l <> []) (snd (wloop chars n line lines))
    /\ (chars <> [] \/ line <> [] -> fst (wloop chars n line lines) <> []).
Proof.
  induction chars as [|c rest IH]; intros n line lines Hch Hne Hst;
    cbn [TextWrapper.wrapLoop].
  - cbn [fst snd]. split; [assumption|split; [assumption|]].
    intros [H|H]; [congruence|assumption].
  - assert (Hsnoc : line ++ [c] <> []) by (now destruct line).
    destruct (Qgtb (measureText (line ++ [c])) maxWidth) eqn:Egt;
      destruct (0 <? n)%nat eqn:En; cbn [andb].
    + apply Nat.ltb_lt in En.
      destruct Hst as [[Hn _]|[_ Hline]]; [lia|].
      destruct (IH (S n) [c] (lines ++ [line])) as (H1 & H2 & H3).
      * apply chained_snoc; [assumption|]. cbn. now apply Qgtb_true.
      * apply Forall_app. split; [assumption|]. now constructor.
      * right. split; [lia|discriminate].
      * split; [assumption|split; [assumption|]]. intros _. apply H3. right. discriminate.
    + apply Nat.ltb_ge in En.
      destruct Hst as [(-> & -> & ->)|[Hn _]]; [|lia].
      cbn [app].
      destruct (IH 1%nat [c] []) as (H1 & H2 & H3).
      * cbn. exact I.
      * constructor.
      * right. split; [lia|discriminate].
      * split; [assumption|split; [assumption|]]. intros _. apply H3. right. discriminate.
    + apply Nat.ltb_lt in En.
      destruct Hst as [[Hn _]|[_ Hline]]; [lia|].
      destruct (IH (S n) (line ++ [c]) lines) as (H1 & H2 & H3).
      * apply (chained_last _ lines line); [assumption|].
        intros p Hp. destruct line as [|d line]; [congruence|exact Hp].
      * assumption.
      * right. split; [lia|assumption].
      * split; [assumption|split; [assumption|]]. intros _. apply H3. now right.
    + apply Nat.ltb_ge in En.
      destruct Hst as [(-> & -> & ->)|[Hn _]]; [|lia].
      cbn [app].
      destruct (IH 1%nat [c] []) as (H1 & H2 & H3).
      * cbn. exact I.
      * constructor.
      * right. split; [lia|discriminate].
      * split; [assumption|split; [assumption|]]. intros _. apply H3. right. discriminate.
Qed.

End WrapperShape.

Lemma wrapLines_chained (measureText : jsstring -> Q) (maxWidth : Q)
      (text : jsstring) :
  chained (overflowed measureText maxWidth)
          (wrapLines measureText maxWidth text).
Proof.
  rewrite wrapLines_unfold.
  apply (wrapLoop_shape measureText maxWidth text 0 [] []).
  - exact I.
  - constructor.
  - left. repeat split.
Qed.

Lemma chained_split (R : jsstring -> jsstring -> Prop) (pre : list jsstring) :
  forall l1 l2 post, chained R (pre ++ l1 :: l2 :: post) -> R l1 l2.
Proof.
  induction pre as [|p pre IH]; intros l1 l2 post Hc.
  - cbn in Hc. tauto.
  - apply (IH l1 l2 post). cbn [app chained] in Hc.
    destruct (pre ++ l1 :: l2 :: post) eqn:E.
    + now destruct pre.
    + tauto.
Qed.

(** X1.  The wrapping is greedy: wherever a line [l1] is followed by a
    line [l2], [l2] begins with a code unit [c] for which [l1 + c]
    measured wider than the budget; no line could have taken the first
    unit of the next. *)
Theorem wrapLines_greedy (measureText : jsstring -> Q) (maxWidth : Q)
        (text : jsstring) (pre post : list jsstring) (l1 l2 : jsstring)
        (Hsplit : wrapLines measureText maxWidth text
                  = pre ++ l1 :: l2 :: post) :
  exists c rest, l2 = c :: rest /\ maxWidth < measureText (l1 ++ [c]).
Proof.
  pose proof (wrapLines_chained measureText maxWidth text) as Hc.
  rewrite Hsplit in Hc. apply chained_split in Hc.
  unfold overflowed in Hc. destruct l2 as [|c rest]; [contradiction|].
  now exists c, rest.
Qed.

Lemma wrapLines_greedy_witness :
  wrapLines glyphWidth 25 [97; 98; 99; 100; 101]%N
  = [] ++ [97; 98]%N :: [99; 100]%N :: [[101]%N]
  /\ exists c rest, [99; 100]%N = c :: rest
                    /\ 25 < glyphWidth ([97; 98]%N ++ [c]).
Proof.
  split; [reflexivity|].
  apply (wrapLines_greedy glyphWidth 25 [97; 98; 99; 100; 101]%N
           [] [[101]%N] [97; 98]%N [99; 100]%N).
  reflexivity.
Defined.

Lemma length_concat_nonempty (ls : list jsstring) :
  Forall (fun l => l <> []) ls -> (length ls <= length (concat ls))%nat.
Proof.
  induction 1 as [|l ls Hl _ IH]; [reflexivity|].
  cbn [concat length]. rewrite length_app.
  destruct l; [congruence|cbn; lia].
Qed.

(** X2.  For a non-empty text no line is empty, so the number of lines
    lies between 1 and the number of code units of the text. *)
Theorem wrapLines_nonempty_lines (measureText : jsstring -> Q) (maxWidth : Q)
        (text : jsstring) (Htext : text <> []) :
  Forall (fun l => l <> []) (wrapLines measureText maxWidth text)
  /\ (1 <= length (wrapLines measureText maxWidth text) <= length text)%nat.
Proof.
  assert (Hall : Forall (fun l => l <> []) (wrapLines measureText maxWidth text)).
  { rewrite wrapLines_unfold.
    destruct (wrapLoop_shape measureText maxWidth text 0 [] [])
      as (_ & H2 & H3); [exact I|constructor|left; repeat split|].
    apply Forall_app. split; [assumption|].
    constructor; [|constructor]. apply H3. now left. }
  split; [assumption|]. split.
  - rewrite wrapLines_unfold, length_app. cbn. lia.
  - pose proof (length_concat_nonempty _ Hall) as Hlen.
    rewrite wrapLines_unfold, concat_app in Hlen. cbn [concat] in Hlen.
    rewrite app_nil_r, wrapLoop_concat in Hlen. cbn in Hlen.
    now rewrite wrapLines_unfold.
Qed.

Lemma wrapLines_nonempty_lines_witness :
  [97; 98; 99; 100]%N <> []
  /\ (1 <= length (wrapLines glyphWidth 25 [97; 98; 99; 100]%N) <= 4)%nat.
Proof.
  split; [discriminate|].
  apply (wrapLines_nonempty_lines glyphWidth 25 [97; 98; 99; 100]%N).
  discriminate.
Defined.

Section WrapperExtremes.

Variable measureText : jsstring -> Q.
Variable maxWidth : Q.

Lemma wrapLoop_all_fit (chars : list code_unit) :
  forall n line,
    (forall k, (0 < k <= length chars)%nat ->
               measureText (line ++ firstn k chars) <= maxWidth) ->
    wrapLoop measureText maxWidth chars n line [] = (line ++ chars, []).
Proof.
  induction chars as [|c rest IH]; intros n line Hfit;
    cbn [TextWrapper.wrapLoop].
  - now rewrite app_nil_r.
  - assert (H1 : Qgtb (measureText (line ++ [c])) maxWidth = false).
    { apply Qgtb_false. apply (Hfit 1%nat). cbn. lia. }
    rewrite H1. cbn [andb].
    rewrite IH; [now rewrite <- app_assoc|].
    intros k Hk. rewrite <- app_assoc. apply (Hfit (S k)). cbn. lia.
Qed.

Lemma wrapLoop_none_fit (chars : list code_unit) :
  forall n line lines,
    (0 < n)%nat ->
    (forall s, s <> [] -> maxWidth < measureText s) ->
    wrapLoop measureText maxWidth chars n line lines
    = (last (line :: map (fun c => [c]) chars) [],
       removelast ((lines ++ [line]) ++ map (fun c => [c]) chars)).
Proof.
  induction chars as [|c rest IH]; intros n line lines Hn Hwide;
    cbn [TextWrapper.wrapLoop].
  - cbn [map last]. rewrite app_nil_r, removelast_last. reflexivity.
  - assert (H1 : Qgtb (measureText (line ++ [c])) maxWidth = true).
    { apply Qgtb_true, Hwide. now destruct line. }
    pose proof Hn as Hn'. apply Nat.ltb_lt in Hn'. rewrite H1, Hn'. cbn [andb].
    rewrite IH; [|lia|assumption].
    cbn [map]. f_equal.
    now rewrite <- !app_assoc.
Qed.

End WrapperExtremes.

(** X3.  A text all of whose non-empty prefixes fit the budget is kept
    on one line. *)
Theorem wrapLines_single_line (measureText : jsstring -> Q) (maxWidth : Q)
        (text : jsstring)
        (Hfit : forall k, (0 < k <= length text)%nat ->
                          measureText (firstn k text) <= maxWidth) :
  wrapLines measureText maxWidth text = [text].
Proof.
  unfold wrapLines.
  rewrite (wrapLoop_all_fit measureText maxWidth text 0 []); [reflexivity|].
  exact Hfit.
Qed.

(** X4.  With a budget that no non-empty string fits (zero, say), the
    loop still ends and puts every code unit on a line of its own; the
    first unit is taken without a line break before it. *)
Theorem wrapLines_one_unit_per_line (measureText : jsstring -> Q)
        (maxWidth : Q) (text : jsstring)
        (Htext : text <> [])
        (Hwide : forall s, s <> [] -> maxWidth < measureText s) :
  wrapLines measureText maxWidth text = map (fun c => [c]) text.
Proof.
  destruct text as [|c rest]; [congruence|].
  unfold wrapLines. cbn [TextWrapper.wrapLoop Nat.ltb Nat.leb andb].
  rewrite andb_false_r.
  rewrite (wrapLoop_none_fit measureText maxWidth rest 1 ([] ++ [c]) []);
    [|lia|assumption].
  cbn [app map].
  change ([c] :: map (fun c0 => [c0]) rest)
    with (map (fun c0 : code_unit => [c0]) (c :: rest)).
  set (ls := map (fun c0 : code_unit => [c0]) (c :: rest)).
  assert (Hne : ls <> []) by discriminate.
  symmetry. now apply app_removelast_last.
Qed.

Lemma wrapLines_single_line_witness :
  (forall k, (0 < k <= length [97; 98]%N)%nat ->
             glyphWidth (firstn k [97; 98]%N) <= 100)
  /\ wrapLines glyphWidth 100 [97; 98]%N = [[97; 98]%N].
Proof.
  assert (Hfit : forall k, (0 < k <= length [97; 98]%N)%nat ->
                           glyphWidth (firstn k [97; 98]%N) <= 100).
  { intros k Hk. cbn in Hk.
    destruct k as [|[|[|k]]]; try lia; vm_compute; discriminate. }
  split; [exact Hfit|].
  exact (wrapLines_single_line glyphWidth 100 [97; 98]%N Hfit).
Defined.

Lemma wrapLines_one_unit_per_line_witness :
  [97; 98; 99]%N <> []
  /\ (forall s : jsstring,
         s <> [] -> 0 < inject_Z (Z.of_nat (length s)))
  /\ wrapLines (fun s => inject_Z (Z.of_nat (length s))) 0 [97; 98; 99]%N
     = [[97]; [98]; [99]]%N.
Proof.
  assert (Hwide : forall s : jsstring,
             s <> [] -> 0 < inject_Z (Z.of_nat (length s))).
  { intros s Hs. destruct s as [|c s]; [congruence|].
    unfold Qlt. cbn. lia. }
  split; [discriminate|]. split; [exact Hwide|].
  apply (wrapLines_one_unit_per_line
           (fun s => inject_Z (Z.of_nat (length s))) 0 [97; 98; 99]%N).
  - discriminate.
  - exact Hwide.
Defined.

(* ------------------------------------------------------------------ *)
(** ** More on the frame geometry *)

Lemma Qpos_nonzero (q : Q) : 0 < q -> ~ q == 0.
Proof.
  intros Hq E. rewrite E in Hq. now apply Qlt_irrefl in Hq.
Qed.

Lemma Qhalf (x : Q) : x / 2 == x * (1 # 2).
Proof. field. Qed.

(** X5.  Cover fit never letterboxes and never distorts: the rectangle
    the image is drawn into starts at or before the surface's top-left
    corner, ends at or after its bottom-right corner, and has the
    image's own aspect ratio. *)
Theorem coverFit_covers (img : HostImage) (width height : Z)
        (Hiw : (0 < imgWidth img)%Z) (Hih : (0 < imgHeight img)%Z)
        (Hw : (0 < width)%Z) (Hh : (0 < height)%Z) :
  let f := Compositor.coverFit img width height in
  Compositor.offsetX f <= 0
  /\ Compositor.offsetY f <= 0
  /\ inject_Z width <= Compositor.offsetX f + Compositor.drawW f
  /\ inject_Z height <= Compositor.offsetY f + Compositor.drawH f
  /\ Compositor.drawW f * inject_Z (imgHeight img)
     == Compositor.drawH f * inject_Z (imgWidth img).
Proof.
  intro f.
  pose proof (inject_Z_pos _ Hiw) as Piw.
  pose proof (inject_Z_pos _ Hih) as Pih.
  pose proof (inject_Z_pos _ Hw) as Pw.
  pose proof (inject_Z_pos _ Hh) as Ph.
  pose proof (Qpos_nonzero _ Piw) as Niw.
  pose proof (Qpos_nonzero _ Pih) as Nih.
  subst f. unfold Compositor.coverFit.
  set (r := inject_Z (imgWidth img) / inject_Z (imgHeight img)).
  assert (Pr : 0 < r).
  { unfold r. apply Qlt_shift_div_l; [assumption|]. now rewrite Qmult_0_l. }
  destruct (Qgtb r (inject_Z width / inject_Z height)) eqn:Hcmp; cbn.
  - apply Qgtb_true in Hcmp.
    assert (Hcov : inject_Z width <= inject_Z height * r).
    { apply Qlt_le_weak. rewrite Qmult_comm. now apply Qdiv_lt_mult. }
    assert (Hasp : inject_Z height * r * inject_Z (imgHeight img)
                   == inject_Z height * inject_Z (imgWidth img)).
    { unfold r. field. assumption. }
    revert Hcov Hasp. generalize (inject_Z height * r). intros q Hcov Hasp.
    rewrite !Qhalf.
    split; [lra|]. split; [lra|]. split; [lra|]. split; [lra|exact Hasp].
  - apply Qgtb_false in Hcmp.
    assert (Hcov : inject_Z height <= inject_Z width / r).
    { apply Qle_shift_div_l; [assumption|].
      rewrite Qmult_comm. now apply Qdiv_ge_mult. }
    assert (Hasp : inject_Z width * inject_Z (imgHeight img)
                   == inject_Z width / r * inject_Z (imgWidth img)).
    { unfold r. field. split; assumption. }
    revert Hcov Hasp. generalize (inject_Z width / r). intros q Hcov Hasp.
    rewrite !Qhalf.
    split; [lra|]. split; [lra|]. split; [lra|]. split; [lra|exact Hasp].
Qed.

Lemma coverFit_covers_witness :
  ((0 < 1600)%Z /\ (0 < 900)%Z /\ (0 < 1080)%Z /\ (0 < 1920)%Z)
  /\ Compositor.offsetX
       (Compositor.coverFit
          {| naturalWidth := 1600; imgWidth := 1600; imgHeight := 900 |}
          1080 1920) <= 0.
Proof.
  split; [lia|].
  pose proof (coverFit_covers
                {| naturalWidth := 1600; imgWidth := 1600; imgHeight := 900 |}
                1080 1920) as H.
  cbv zeta in H. cbn [imgWidth imgHeight] in H.
  destruct H as (Hx & _); try lia. exact Hx.
Defined.

(** X6.  An image with the surface's own aspect ratio is drawn exactly
    onto the surface: no offset and nothing cropped. *)
Theorem coverFit_exact (img : HostImage) (width height : Z)
        (Hiw : (0 < imgWidth img)%Z) (Hih : (0 < imgHeight img)%Z)
        (Hw : (0 < width)%Z) (Hh : (0 < height)%Z)
        (Hsame : inject_Z (imgWidth img) / inject_Z (imgHeight img)
                 == inject_Z width / inject_Z height) :
  let f := Compositor.coverFit img width height in
  Compositor.offsetX f == 0
  /\ Compositor.offsetY f == 0
  /\ Compositor.drawW f == inject_Z width
  /\ Compositor.drawH f == inject_Z height.
Proof.
  intro f.
  pose proof (Qpos_nonzero _ (inject_Z_pos _ Hiw)) as Niw.
  pose proof (Qpos_nonzero _ (inject_Z_pos _ Hih)) as Nih.
  pose proof (Qpos_nonzero _ (inject_Z_pos _ Hw)) as Nw.
  pose proof (Qpos_nonzero _ (inject_Z_pos _ Hh)) as Nh.
  subst f. unfold Compositor.coverFit.
  assert (Hcmp : Qgtb (inject_Z (imgWidth img) / inject_Z (imgHeight img))
                      (inject_Z width / inject_Z height) = false).
  { apply Qgtb_false. rewrite Hsame. apply Qle_refl. }
  rewrite Hcmp. cbn.
  assert (Hh' : inject_Z width
                / (inject_Z (imgWidth img) / inject_Z (imgHeight img))
                == inject_Z height).
  { rewrite Hsame. field. split; assumption. }
  split; [reflexivity|]. split; [rewrite Hh'; field|].
  split; [reflexivity|exact Hh'].
Qed.

Lemma coverFit_exact_witness :
  ((0 < 1024)%Z /\ (0 < 576)%Z /\ (0 < 1920)%Z /\ (0 < 1080)%Z
   /\ inject_Z 1024 / inject_Z 576 == inject_Z 1920 / inject_Z 1080)
  /\ Compositor.drawH
       (Compositor.coverFit
          {| naturalWidth := 1024; imgWidth := 1024; imgHeight := 576 |}
          1920 1080) == inject_Z 1080.
Proof.
  assert (Hsame : inject_Z 1024 / inject_Z 576 == inject_Z 1920 / inject_Z 1080)
    by reflexivity.
  split; [repeat split; try lia; exact Hsame|].
  pose proof (coverFit_exact
                {| naturalWidth := 1024; imgWidth := 1024; imgHeight := 576 |}
                1920 1080) as H.
  cbv zeta in H. cbn [imgWidth imgHeight] in H.
  destruct H as (_ & _ & _ & Hd); try lia; [exact Hsame|exact Hd].
Defined.

(** The first line's position depends on the dialogue through the line
    count only. *)
Lemma startY_lineCount (measure : Z -> jsstring -> Q) (width height : Z)
      (d : jsstring) :
  Compositor.startY measure width height d
  = inject_Z height - inject_Z height * 0.08
    - inject_Z (Compositor.lineCount measure width height d)
      * Compositor.lineHeight height.
Proof. reflexivity. Qed.

(** An integer count stays under a rational bound exactly up to the
    last integer whose multiple fits. *)
Lemma line_threshold (n k : Z) (c lh : Q) :
  inject_Z k * lh <= c -> c < inject_Z (k + 1) * lh -> 0 < lh ->
  ((n <= k)%Z <-> inject_Z n * lh <= c).
Proof.
  intros Hk Hk1 Hlh. split; intro H.
  - apply Qle_trans with (inject_Z k * lh); [|assumption].
    apply Qmult_le_compat_r; [now rewrite <- Zle_Qle | now apply Qlt_le_weak].
  - destruct (Z_le_gt_dec n k) as [Hle|Hgt]; [exact Hle|exfalso].
    assert (Hq : inject_Z (k + 1) <= inject_Z n) by (rewrite <- Zle_Qle; lia).
    apply (Qmult_le_compat_r _ _ lh) in Hq; [|now apply Qlt_le_weak].
    apply (Qlt_irrefl c).
    apply Qlt_le_trans with (inject_Z (k + 1) * lh); [assumption|].
    now apply Qle_trans with (inject_Z n * lh).
Qed.

(** Replace the line height and the height of a given surface by their
    values. *)
Ltac surface_consts :=
  repeat match goal with
         | |- context [Compositor.lineHeight ?h] =>
             let c := eval vm_compute in (Compositor.lineHeight h) in
             change (Compositor.lineHeight h) with c
         | |- context [inject_Z (snd (surface ?a))] =>
             let c := eval vm_compute in (inject_Z (snd (surface a))) in
             change (inject_Z (snd (surface a))) with c
         end.

(** X7.  On each of the five export surfaces the subtitle block starts
    inside the gradient strap (the lowest quarter of the surface)
    exactly when the dialogue wraps to at most three lines; from four
    lines on, its first lines are drawn above the strap. *)
Theorem subtitles_inside_strap (measure : Z -> jsstring -> Q)
        (a : AspectRatio) (d : jsstring) :
  let w := fst (surface a) in
  let h := snd (surface a) in
  (Compositor.lineCount measure w h d <= 3)%Z
  <-> inject_Z h - inject_Z h * 0.25 <= Compositor.startY measure w h d.
Proof.
  intros w h. subst w h. rewrite startY_lineCount.
  generalize (Compositor.lineCount measure (fst (surface a)) (snd (surface a)) d).
  intro n. destruct a; surface_consts.
  all: match goal with
       | |- _ <-> ?A - ?B <= ?A - ?C - ?x * ?lh =>
           rewrite (line_threshold n 3 (A - C - (A - B)) lh);
           [ split; intro H; lra | vm_compute; discriminate
           | vm_compute; reflexivity | vm_compute; reflexivity ]
       end.
Qed.

(** X8.  On each of the five export surfaces the subtitle block starts
    on the canvas exactly when the dialogue wraps to at most seventeen
    lines; a longer dialogue has its first lines drawn above the top
    edge. *)
Theorem subtitles_on_canvas (measure : Z -> jsstring -> Q)
        (a : AspectRatio) (d : jsstring) :
  let w := fst (surface a) in
  let h := snd (surface a) in
  (Compositor.lineCount measure w h d <= 17)%Z
  <-> 0 <= Compositor.startY measure w h d.
Proof.
  intros w h. subst w h. rewrite startY_lineCount.
  generalize (Compositor.lineCount measure (fst (surface a)) (snd (surface a)) d).
  intro n. destruct a; surface_consts.
  all: match goal with
       | |- _ <-> 0 <= ?A - ?C - ?x * ?lh =>
           rewrite (line_threshold n 17 (A - C) lh);
           [ split; intro H; lra | vm_compute; discriminate
           | vm_compute; reflexivity | vm_compute; reflexivity ]
       end.
Qed.

Lemma drawSubtitles_nonempty (measure : Z -> jsstring -> Q) (w h : Z)
      (d : jsstring) :
  Compositor.filledLines (Compositor.drawSubtitles measure w h d) <> [].
Proof.
  unfold Compositor.drawSubtitles.
  rewrite filledLines_app. cbn [Compositor.filledLines app].
  unfold Compositor.drawWrappedText.
  rewrite wrapLines_unfold.
  intro H. apply (f_equal (@length _)) in H.
  rewrite filledLines_drawLines, length_app in H. cbn in H. lia.
Qed.

(** X9.  A frame carries subtitle text exactly when the shot's dialogue
    is truthy; a shot whose dialogue is missing or the empty string is
    drawn as the picture alone, without strap or text. *)
Theorem frame_text_iff_dialogue (measure : Z -> jsstring -> Q) (w h : Z)
        (img : HostImage) (dialogue : option jsstring) :
  (Compositor.filledLines (Compositor.compositeFrame measure w h img dialogue)
   = [] <-> truthy dialogue = false)
  /\ (Compositor.compositeFrame measure w h img dialogue
      = Compositor.drawPicture w h img <-> truthy dialogue = false).
Proof.
  unfold Compositor.compositeFrame.
  destruct dialogue as [[|c d]|]; cbn [truthy].
  - rewrite app_nil_r, drawPicture_no_text. now split.
  - split; split; intro H; try discriminate H; exfalso.
    + rewrite filledLines_app, drawPicture_no_text in H. cbn [app] in H.
      now apply drawSubtitles_nonempty in H.
    + rewrite <- (app_nil_r (Compositor.drawPicture w h img)) in H at 2.
      apply app_inv_head in H.
      apply (drawSubtitles_nonempty measure w h (c :: d)).
      now rewrite H.
  - rewrite app_nil_r, drawPicture_no_text. now split.
Qed.

(* ------------------------------------------------------------------ *)
(** ** More on the export run *)

Import ExportTrace.

Lemma canvas_calls_loop_events (ops : list op) :
  forallb is_loop_event (map CanvasCall ops) = true.
Proof.
  induction ops as [|o ops IH]; [reflexivity|exact IH].
Qed.

Lemma forallb_bind {A} (P : event -> bool) (c : Run unit) (m : Run A) :
  forallb P (fst c) = true ->
  forallb P (fst m) = true ->
  forallb P (fst (c ;;; m)) = true.
Proof.
  destruct c as [tr [[]| |]]; destruct m as [tr' r]; cbn [bind fst];
    intros Hc Hm; rewrite ?forallb_app, ?Hc, ?Hm; reflexivity.
Qed.

Lemma cycle_loop_events (host : Host) (w h : Z) (i total : nat) (shot : Shot) :
  forallb is_loop_event (fst (cycle host w h i total shot)) = true.
Proof.
  rewrite cycle_trace.
  destruct (canvasFault host i);
    destruct (decode host i (imageSrc w h shot)); cbn [fst forallb is_loop_event andb app];
    rewrite ?forallb_app, ?canvas_calls_loop_events; reflexivity.
Qed.

Lemma exportLoop_loop_events (host : Host) (w h : Z) (sb : loc) (fuel : nat) :
  forall i st,
    forallb is_loop_event (fst (exportLoop host w h fuel sb i st)) = true.
Proof.
  induction fuel as [|fuel IH]; intros i st; cbn [exportLoop]; [reflexivity|].
  destruct (i <? length (readArray st sb))%nat; [|reflexivity].
  destruct (nth_error (readArray st sb) i); [|reflexivity].
  apply forallb_bind; [apply cycle_loop_events | apply IH].
Qed.

(** The shape of every run that passes the guard: the prologue, some
    events of the [try] block, and then the stop sequence, the [catch]
    sequence, or nothing if the fuel ran out. *)
Lemma run_shape (host : Host) (fuel : nat) (a : AspectRatio)
      (sb : loc) (st : Store) :
  exists body,
    forallb is_body_event body = true
    /\ match snd (handleExportVideo host fuel false a sb st) with
       | Completed =>
           fst (handleExportVideo host fuel false a sb st)
           = prologue ++ body ++ fst (stopRecorder host)
       | Aborted =>
           fst (handleExportVideo host fuel false a sb st)
           = prologue ++ body ++ catchTrace
       | Unfinished =>
           fst (handleExportVideo host fuel false a sb st) = prologue ++ body
       | Skipped => False
       end.
Proof.
  unfold handleExportVideo, tryBlock.
  destruct (surface a) as [w h].
  pose proof (exportLoop_loop_events host w h sb fuel 0 st) as Hloop.
  assert (Hbody : forall tr, forallb is_loop_event tr = true ->
                             forallb is_body_event tr = true).
  { induction tr as [|e tr IH]; [reflexivity|]. cbn [forallb].
    intro H. apply andb_prop in H. destruct H as [He Htr].
    rewrite (IH Htr), andb_true_r. now destruct e. }
  destruct (contextAvailable host).
  2:{ exists [CreateCanvas w h]. split; reflexivity. }
  destruct (recorderAvailable host).
  2:{ exists [CreateCanvas w h; CaptureStream 30]. split; reflexivity. }
  destruct (exportLoop host w h fuel sb 0 st) as [tr [st'| |]];
    cbn [fst snd] in *;
    exists ([CreateCanvas w h; CaptureStream 30;
             NewRecorder (vp9Supported host) 5000000; RecorderStart] ++ tr);
    (split; [cbn [forallb is_body_event app andb]; now apply Hbody|]);
    cbn; rewrite ?app_nil_r; reflexivity.
Qed.

Lemma drawLines_plain (ls : list jsstring) :
  forall idx x y lh,
    existsb is_drawImage (map CanvasCall (Compositor.drawLines ls idx x y lh))
    = false
    /\ existsb is_missingLabel
         (map CanvasCall (Compositor.drawLines ls idx x y lh)) = false.
Proof.
  induction ls as [|l ls IH]; intros idx x y lh; cbn; [now split|].
  apply IH.
Qed.

Lemma subtitles_plain (measure : Z -> jsstring -> Q) (w h : Z)
      (dialogue : option jsstring) :
  let ops := match dialogue with
             | Some d => if truthy dialogue
                         then Compositor.drawSubtitles measure w h d else []
             | None => []
             end in
  existsb is_drawImage (map CanvasCall ops) = false
  /\ existsb is_missingLabel (map CanvasCall ops) = false.
Proof.
  destruct dialogue as [d|]; cbn zeta; [|now split].
  destruct (truthy (Some d)); [|now split].
  unfold Compositor.drawSubtitles, Compositor.drawWrappedText.
  rewrite map_app, !existsb_app. cbn [map existsb is_drawImage is_missingLabel orb].
  apply drawLines_plain.
Qed.

(** X10.  A shot whose image fails to load does not stop the export:
    if no canvas call raises, the iteration returns and ends with its
    hold whatever the load gave.  [drawImage] is called exactly when
    the load succeeded with a positive natural width; otherwise the
    "Missing Image" label is drawn instead; a warning is logged exactly
    when the load failed. *)
Theorem failed_image_is_not_fatal (host : Host) (w h : Z) (i total : nat)
        (shot : Shot) (Hok : canvasFault host i = false) :
  let tr := fst (cycle host w h i total shot) in
  let shown := match decode host i (imageSrc w h shot) with
               | Loaded img => (naturalWidth img >? 0)%Z
               | LoadFailed => false
               end in
  snd (cycle host w h i total shot) = Returned tt
  /\ (exists body, tr = body ++ [Hold RECORD_DURATION])
  /\ existsb is_drawImage tr = shown
  /\ existsb is_missingLabel tr = negb shown
  /\ existsb is_warn tr = match decode host i (imageSrc w h shot) with
                          | Loaded _ => false
                          | LoadFailed => true
                          end.
Proof.
  intros tr shown. subst tr shown.
  rewrite cycle_trace. cbv zeta. rewrite Hok. cbn [fst snd].
  split; [reflexivity|]. split.
  { eexists (_ :: _ :: _ ++ _). cbn [app]. now rewrite <- app_assoc. }
  assert (Hwarn : forall ops, existsb is_warn (map CanvasCall ops) = false).
  { induction ops as [|o ops IH]; [reflexivity|exact IH]. }
  unfold Compositor.compositeFrame.
  destruct (subtitles_plain (measure host) w h (dialogue shot)) as [Hs1 Hs2].
  cbv zeta in Hs1, Hs2.
  destruct (decode host i (imageSrc w h shot)) as [img|];
    cbn [app existsb is_drawImage is_missingLabel is_warn orb];
    rewrite !existsb_app, !map_app, !existsb_app, Hs1, Hs2, ?Hwarn;
    unfold Compositor.drawPicture;
    cbn [naturalWidth Z.gtb Z.compare];
    try destruct (naturalWidth img >? 0)%Z; cbn; auto.
Qed.

Lemma failed_image_is_not_fatal_witness :
  canvasFault Samples.hostOk 0 = false
  /\ snd (cycle Samples.hostOk 1920 1080 0 1 Samples.shotA) = Returned tt.
Proof.
  split; [reflexivity|].
  pose proof (failed_image_is_not_fatal
                Samples.hostOk 1920 1080 0%nat 1%nat Samples.shotA eq_refl) as H.
  cbv zeta in H. exact (proj1 H).
Defined.

Lemma body_events_quiet (body : list event) :
  forallb is_body_event body = true ->
  filter is_download body = []
  /\ filter is_stop body = []
  /\ forall f, exporting (flagsAfter body f) = exporting f
               /\ playing (flagsAfter body f) = playing f.
Proof.
  induction body as [|e body IH]; intro H; [now repeat split|].
  cbn [forallb] in H. apply andb_prop in H. destruct H as [He Hb].
  destruct (IH Hb) as (H1 & H2 & H3).
  destruct e; try discriminate He; cbn [filter is_download is_stop];
    (split; [assumption|split; [assumption|]]);
    intro f; unfold flagsAfter in *; cbn [fold_left setter];
    match goal with |- context [fold_left setter body ?g] =>
      destruct (H3 g) as [Ha Hb']; rewrite Ha, Hb'; now split end.
Qed.

Lemma flagsAfter_app (a b : list event) (f : Flags) :
  flagsAfter (a ++ b) f = flagsAfter b (flagsAfter a f).
Proof. apply fold_left_app. Qed.

Lemma concat_filter_nonempty {A} (ls : list (list A)) :
  concat (filter (fun c => (0 <? length c)%nat) ls) = concat ls.
Proof.
  induction ls as [|l ls IH]; [reflexivity|].
  destruct l as [|x l]; [exact IH|].
  exact (f_equal (app (x :: l)) IH).
Qed.

(** X12.  A run that aborts saves nothing: its trace has no download
    and no [recorder.stop()], and it ends with the three actions of the
    [catch] block (log, clear [isExporting], alert). *)
Theorem aborted_run_saves_nothing (host : Host) (fuel : nat) (b : bool)
        (a : AspectRatio) (sb : loc) (st : Store)
        (Habort : snd (handleExportVideo host fuel b a sb st) = Aborted) :
  filter is_download (fst (handleExportVideo host fuel b a sb st)) = []
  /\ filter is_stop (fst (handleExportVideo host fuel b a sb st)) = []
  /\ exists pre,
       fst (handleExportVideo host fuel b a sb st)
       = pre ++ [ConsoleError; SetIsExporting false; Alert].
Proof.
  destruct b; [discriminate Habort|].
  destruct (run_shape host fuel a sb st) as (body & Hbody & Hshape).
  rewrite Habort in Hshape. rewrite Hshape.
  destruct (body_events_quiet body Hbody) as (Hd & Hs & _).
  rewrite !filter_app, Hd, Hs. cbn.
  repeat split. exists (prologue ++ body). now rewrite <- app_assoc.
Qed.

Lemma aborted_run_saves_nothing_witness :
  snd (handleExportVideo Samples.hostFaulty 2%nat false LANDSCAPE 0%nat
         Samples.store1) = Aborted
  /\ filter is_download
       (fst (handleExportVideo Samples.hostFaulty 2%nat false LANDSCAPE 0%nat
               Samples.store1)) = [].
Proof.
  split; [reflexivity|].
  exact (proj1 (aborted_run_saves_nothing
                  Samples.hostFaulty 2%nat false LANDSCAPE 0%nat
                  Samples.store1 eq_refl)).
Defined.

(** X13.  If the 2d context or the recorder is not available, the run
    aborts during set-up, whatever the storyboard: no recorder is
    started, no image is requested and nothing is held or saved. *)
Theorem setup_failure_aborts (host : Host) (fuel : nat) (a : AspectRatio)
        (sb : loc) (st : Store)
        (Hfail : contextAvailable host && recorderAvailable host = false) :
  let run := handleExportVideo host fuel false a sb st in
  snd run = Aborted
  /\ filter is_start (fst run) = []
  /\ filter is_request (fst run) = []
  /\ filter is_hold (fst run) = []
  /\ filter is_download (fst run) = [].
Proof.
  cbv zeta. unfold handleExportVideo, tryBlock.
  destruct (surface a) as [w h].
  destruct (contextAvailable host); [|now repeat split].
  destruct (recorderAvailable host); [discriminate Hfail|now repeat split].
Qed.

Lemma setup_failure_aborts_witness :
  contextAvailable Samples.hostOk && false = false
  /\ snd (handleExportVideo
            {| contextAvailable := true; vp9Supported := false;
               recorderAvailable := false;
               decode := decode Samples.hostOk;
               measure := measure Samples.hostOk;
               canvasFault := fun _ => false; encoded := [];
               stopTime := 0; updates := fun _ => [] |}
            3%nat false CLASSIC 0%nat Samples.store2) = Aborted.
Proof.
  split; [reflexivity|].
  pose proof (setup_failure_aborts
                {| contextAvailable := true; vp9Supported := false;
                   recorderAvailable := false;
                   decode := decode Samples.hostOk;
                   measure := measure Samples.hostOk;
                   canvasFault := fun _ => false; encoded := [];
                   stopTime := 0; updates := fun _ => [] |}
                3%nat CLASSIC 0%nat Samples.store2 eq_refl) as H.
  cbv zeta in H. exact (proj1 H).
Defined.

(** X14.  A run that completes saves exactly one file, and its content
    is all the chunks the recorder delivered, joined in delivery order:
    skipping the empty chunks loses nothing. *)
Theorem completed_run_saves_all_chunks (host : Host) (fuel : nat) (b : bool)
        (a : AspectRatio) (sb : loc) (st : Store)
        (Hdone : snd (handleExportVideo host fuel b a sb st) = Completed) :
  filter is_download (fst (handleExportVideo host fuel b a sb st))
  = [Download (stopTime host) (concat (encoded host))].
Proof.
  destruct b; [discriminate Hdone|].
  destruct (run_shape host fuel a sb st) as (body & Hbody & Hshape).
  rewrite Hdone in Hshape. rewrite Hshape.
  destruct (body_events_quiet body Hbody) as (Hd & _ & _).
  rewrite !filter_app, Hd. unfold stopRecorder, emit, prologue.
  cbn [fst filter is_download app]. now rewrite concat_filter_nonempty.
Qed.

Lemma completed_run_saves_all_chunks_witness :
  snd (handleExportVideo Samples.hostOk 3%nat false SQUARE 0%nat
         Samples.store2) = Completed
  /\ filter is_download
       (fst (handleExportVideo Samples.hostOk 3%nat false SQUARE 0%nat
               Samples.store2))
     = [Download 1700000000000 [26; 69; 223]%N].
Proof.
  split; [reflexivity|].
  exact (completed_run_saves_all_chunks
           Samples.hostOk 3%nat false SQUARE 0%nat Samples.store2 eq_refl).
Defined.

Lemma cycles_first_fault (host : Host) (w h : Z) (shots : list Shot) :
  forall i total k,
    (k < length shots)%nat ->
    (forall j, (j < k)%nat -> canvasFault host (i + j) = false) ->
    canvasFault host (i + k) = true ->
    exists tr,
      cycles host w h i total shots = (tr, Thrown)
      /\ length (filter is_hold tr) = k
      /\ requested tr = seq i (S k).
Proof.
  induction shots as [|shot rest IH]; intros i total k Hk Hbefore Hat;
    [cbn in Hk; lia|].
  cbn [cycles]. destruct k as [|k].
  - rewrite Nat.add_0_r in Hat. rewrite cycle_trace. cbv zeta. rewrite Hat.
    eexists. split; [reflexivity|].
    destruct (decode host i (imageSrc w h shot)); now cbn.
  - assert (Hi : canvasFault host i = false).
    { rewrite <- (Nat.add_0_r i). apply Hbefore. lia. }
    destruct (filter_hold_cycle host w h i total shot Hi)
      as (body & Hbody & Hh & _ & Hr).
    pose proof (cycle_returns host w h i total shot Hi) as Hret.
    destruct (cycle host w h i total shot) as [tr0 r0].
    cbn [fst snd] in Hbody, Hret. subst tr0 r0.
    destruct (IH (S i) total k) as (tr & Htr & Hth & Htq).
    + cbn in Hk. lia.
    + intros j Hj. replace (S i + j)%nat with (i + S j)%nat by lia.
      apply Hbefore. lia.
    + now replace (S i + k)%nat with (i + S k)%nat by lia.
    + rewrite Htr. cbn [bind]. eexists. split; [reflexivity|].
      rewrite !filter_app, !requested_app, !length_app, Hh, Hr, Hth, Htq.
      now cbn.
Qed.

(** X11.  When the first canvas fault happens while shot [k] is drawn,
    the run aborts there: shots [0 .. k-1] were composited and held,
    shot [k] was requested but never held, and no later shot is
    touched. *)
Theorem export_stops_at_first_fault (host : Host) (fuel : nat)
        (a : AspectRatio) (sb : loc) (st : Store) (k : nat)
        (Hctx : contextAvailable host = true)
        (Hrec : recorderAvailable host = true)
        (Hsb : (sb < length (heap st))%nat)
        (Hfuel : (length (readArray st sb) < fuel)%nat)
        (Hk : (k < length (readArray st sb))%nat)
        (Hbefore : forall j, (j < k)%nat -> canvasFault host j = false)
        (Hat : canvasFault host k = true) :
  let run := handleExportVideo host fuel false a sb st in
  snd run = Aborted
  /\ length (filter is_hold (fst run)) = k
  /\ requested (fst run) = seq 0 (S k).
Proof.
  cbv zeta. rewrite handleExportVideo_run by assumption.
  destruct (cycles_first_fault host (fst (surface a)) (snd (surface a))
              (readArray st sb) 0 (length (readArray st sb)) k Hk Hbefore Hat)
    as (tr & Htr & Hh & Hr).
  rewrite Htr. cbn [fst snd].
  split; [reflexivity|].
  rewrite !filter_app, !requested_app, !length_app, Hh, Hr. cbn.
  split; [lia|now rewrite app_nil_r].
Qed.

Lemma export_stops_at_first_fault_witness :
  (contextAvailable Samples.hostFaulty = true
   /\ recorderAvailable Samples.hostFaulty = true
   /\ (0 < length (heap Samples.store2))%nat
   /\ (length (readArray Samples.store2 0) < 3)%nat
   /\ (0 < length (readArray Samples.store2 0))%nat
   /\ (forall j, (j < 0)%nat -> canvasFault Samples.hostFaulty j = false)
   /\ canvasFault Samples.hostFaulty 0 = true)
  /\ snd (handleExportVideo Samples.hostFaulty 3%nat false LANDSCAPE 0%nat
            Samples.store2) = Aborted.
Proof.
  split.
  - repeat split; cbn; lia.
  - pose proof (export_stops_at_first_fault
                  Samples.hostFaulty 3%nat LANDSCAPE 0%nat Samples.store2 0%nat
                  eq_refl eq_refl Nat.lt_0_1 (Nat.lt_succ_diag_r 2)
                  Nat.lt_0_2
                  (fun j (Hj : (j < 0)%nat) =>
                     False_ind _ (Nat.nlt_0_r j Hj))
                  eq_refl) as H.
    cbv zeta in H. exact (proj1 H).
Defined.

Lemma Qfloor_below (y : Q) (z : Z) : y < inject_Z z -> (Qfloor y < z)%Z.
Proof.
  intro H. rewrite Zlt_Qlt.
  apply Qle_lt_trans with y; [apply Qfloor_le|assumption].
Qed.

(** [Math.round(i / total * 100)] for [i <= j < total]. *)
Lemma js_round_progress (i j total : nat) :
  (i <= j)%nat -> (j < total)%nat ->
  let p := js_round (inject_Z (Z.of_nat i) / inject_Z (Z.of_nat total) * 100) in
  let q := js_round (inject_Z (Z.of_nat j) / inject_Z (Z.of_nat total) * 100) in
  (0 <= p <= q)%Z /\ (q <= 100)%Z /\ ((total < 200)%nat -> (q <= 99)%Z).
Proof.
  intros Hij Hj p q. subst p q. unfold js_round.
  assert (Pn : 0 < inject_Z (Z.of_nat total)).
  { apply inject_Z_pos. lia. }
  assert (Hi0 : 0 <= inject_Z (Z.of_nat i) / inject_Z (Z.of_nat total)).
  { apply Qle_shift_div_l; [assumption|]. rewrite Qmult_0_l.
    change 0 with (inject_Z 0). rewrite <- Zle_Qle. lia. }
  assert (Hle : inject_Z (Z.of_nat i) / inject_Z (Z.of_nat total)
                <= inject_Z (Z.of_nat j) / inject_Z (Z.of_nat total)).
  { apply Qmult_le_compat_r.
    - rewrite <- Zle_Qle. lia.
    - apply Qlt_le_weak, Qinv_lt_0_compat, Pn. }
  assert (Hlt1 : inject_Z (Z.of_nat j) / inject_Z (Z.of_nat total) < 1).
  { apply Qlt_shift_div_r; [assumption|]. rewrite Qmult_1_l.
    rewrite <- Zlt_Qlt. lia. }
  assert (Hsmall : (total < 200)%nat ->
                   inject_Z (Z.of_nat j) / inject_Z (Z.of_nat total)
                   < 199 # 200).
  { intro Ht. apply Qlt_shift_div_r; [assumption|].
    assert (Hz : inject_Z (200 * Z.of_nat j) < inject_Z (199 * Z.of_nat total)).
    { rewrite <- Zlt_Qlt. lia. }
    rewrite !inject_Z_mult in Hz.
    change (inject_Z 200) with 200 in Hz. change (inject_Z 199) with 199 in Hz.
    revert Hz. generalize (inject_Z (Z.of_nat j)), (inject_Z (Z.of_nat total)).
    intros x y Hz. lra. }
  revert Hi0 Hle Hlt1 Hsmall.
  generalize (inject_Z (Z.of_nat i) / inject_Z (Z.of_nat total)).
  generalize (inject_Z (Z.of_nat j) / inject_Z (Z.of_nat total)).
  intros y x Hx0 Hxy Hy1 Hsmall.
  split; [split|split].
  - apply Z.le_trans with (Qfloor 0); [reflexivity|].
    apply Qfloor_resp_le. lra.
  - apply Qfloor_resp_le. lra.
  - apply Z.le_trans with (Qfloor (201 # 2)); [|vm_compute; discriminate].
    apply Qfloor_resp_le. lra.
  - intro Ht. specialize (Hsmall Ht).
    assert (H : (Qfloor (y * 100 + (1 # 2)) < 100)%Z).
    { apply Qfloor_below. change (inject_Z 100) with 100. lra. }
    lia.
Qed.

(** X15.  Every iteration begins by reporting a progress percentage.
    For iterations [i <= j] of a storyboard of [total] shots the values
    are ordered and lie between 0 and 100; below 200 shots they stay
    under 100, so the display cannot show 100% while a shot remains. *)
Theorem export_progress_bounds (host : Host) (w h : Z) (i j total : nat)
        (s1 s2 : Shot) (Hij : (i <= j)%nat) (Hj : (j < total)%nat) :
  exists p q r1 r2,
    fst (cycle host w h i total s1) = SetExportProgress p :: r1
    /\ fst (cycle host w h j total s2) = SetExportProgress q :: r2
    /\ (0 <= p <= q)%Z /\ (q <= 100)%Z
    /\ ((total < 200)%nat -> (q <= 99)%Z).
Proof.
  rewrite !cycle_trace. cbv zeta.
  destruct (js_round_progress i j total Hij Hj) as (H1 & H2 & H3).
  destruct (canvasFault host i); destruct (canvasFault host j); cbn [fst];
    do 4 eexists; (split; [reflexivity|split; [reflexivity|]]);
    now repeat split.
Qed.

Lemma export_progress_bounds_witness :
  ((1 <= 2)%nat /\ (2 < 3)%nat)
  /\ exists p q r1 r2,
       fst (cycle Samples.hostOk 1920 1080 1 3 Samples.shotA)
       = SetExportProgress p :: r1
       /\ fst (cycle Samples.hostOk 1920 1080 2 3 Samples.shotB)
          = SetExportProgress q :: r2
       /\ (0 <= p <= q)%Z /\ (q <= 100)%Z
       /\ ((3 < 200)%nat -> (q <= 99)%Z).
Proof.
  split; [lia|].
  apply (export_progress_bounds Samples.hostOk 1920 1080 1%nat 2%nat 3%nat
           Samples.shotA Samples.shotB); lia.
Defined.

Lemma cycles_no_fuel_needed (host : Host) (w h : Z) (shots : list Shot) :
  forall i total, snd (cycles host w h i total shots) <> OutOfFuel.
Proof.
  induction shots as [|shot rest IH]; intros i total; cbn [cycles];
    [discriminate|].
  rewrite cycle_trace. cbv zeta.
  specialize (IH (S i) total).
  destruct (canvasFault host i); cbn [bind]; [discriminate|].
  destruct (cycles host w h (S i) total rest) as [tr r]. exact IH.
Qed.

(** With fuel above the length of the captured array the run does not
    stop for lack of fuel. *)
Lemma enough_fuel_finishes (host : Host) (fuel : nat) (a : AspectRatio)
      (sb : loc) (st : Store) :
  (sb < length (heap st))%nat ->
  (length (readArray st sb) < fuel)%nat ->
  snd (handleExportVideo host fuel false a sb st) <> Unfinished.
Proof.
  intros Hsb Hfuel. unfold handleExportVideo, tryBlock.
  destruct (surface a) as [w h].
  destruct (contextAvailable host); [|discriminate].
  destruct (recorderAvailable host); [|discriminate].
  pose proof (exportLoop_cycles host w h sb (readArray st sb) fuel 0 st
                Hsb eq_refl Hfuel) as Hloop.
  pose proof (cycles_no_fuel_needed host w h (readArray st sb) 0
                (length (readArray st sb))) as Hfin.
  rewrite <- Hloop in Hfin.
  destruct (exportLoop host w h fuel sb 0 st) as [tr [st'| |]];
    cbn in *; try discriminate. congruence.
Qed.

Lemma flagsAfter_prologue (f : Flags) :
  flagsAfter prologue f
  = {| exporting := true; exportProgress := 0; playing := false |}.
Proof. reflexivity. Qed.

Lemma flagsAfter_stop (host : Host) (g : Flags) :
  flagsAfter (fst (stopRecorder host)) g
  = {| exporting := false; exportProgress := 0; playing := playing g |}.
Proof. reflexivity. Qed.

Lemma flagsAfter_catch (g : Flags) :
  flagsAfter catchTrace g
  = {| exporting := false; exportProgress := exportProgress g;
       playing := playing g |}.
Proof. reflexivity. Qed.

(** X16.  With fuel above the length of the captured array, a run that
    passes the guard ends completed or aborted, and either way leaves
    [isExporting] false and [isPlaying] false: the export overlay is
    always taken down, and the preview stays paused.  A completed run
    also puts the progress back to 0. *)
Theorem finished_run_clears_flags (host : Host) (fuel : nat)
        (a : AspectRatio) (sb : loc) (st : Store) (f : Flags)
        (Hsb : (sb < length (heap st))%nat)
        (Hfuel : (length (readArray st sb) < fuel)%nat) :
  let run := handleExportVideo host fuel false a sb st in
  (snd run = Completed \/ snd run = Aborted)
  /\ exporting (flagsAfter (fst run) f) = false
  /\ playing (flagsAfter (fst run) f) = false
  /\ (snd run = Completed -> exportProgress (flagsAfter (fst run) f) = 0%Z).
Proof.
  cbv zeta.
  pose proof (enough_fuel_finishes host fuel a sb st Hsb Hfuel) as Hfin.
  destruct (run_shape host fuel a sb st) as (body & Hbody & Hshape).
  destruct (body_events_quiet body Hbody) as (_ & _ & Hflags).
  destruct (Hflags (flagsAfter prologue f)) as [_ Hp].
  rewrite flagsAfter_prologue in Hp. cbn [playing] in Hp.
  destruct (snd (handleExportVideo host fuel false a sb st));
    try contradiction; try congruence;
    rewrite Hshape, !flagsAfter_app, flagsAfter_prologue.
  - rewrite flagsAfter_stop. cbn [exporting playing exportProgress].
    split; [now left|]. now repeat split.
  - rewrite flagsAfter_catch. cbn [exporting playing exportProgress].
    split; [now right|]. split; [reflexivity|]. split; [assumption|discriminate].
Qed.

Lemma finished_run_clears_flags_witness :
  ((0 < length (heap Samples.store2))%nat
   /\ (length (readArray Samples.store2 0) < 3)%nat)
  /\ exporting
       (flagsAfter
          (fst (handleExportVideo Samples.hostFaulty 3%nat false PORTRAIT 0%nat
                  Samples.store2))
          {| exporting := false; exportProgress := 0; playing := true |})
     = false.
Proof.
  split; [split; cbn; lia|].
  pose proof (finished_run_clears_flags
                Samples.hostFaulty 3%nat PORTRAIT 0%nat Samples.store2
                {| exporting := false; exportProgress := 0; playing := true |}
                Nat.lt_0_1 (Nat.lt_succ_diag_r 2)) as H.
  cbv zeta in H. exact (proj1 (proj2 H)).
Defined.

(* ------------------------------------------------------------------ *)
(** ** The image queue of the application *)

Import AppShots.

Lemma id_eqb_refl (k : jsstring) : id_eqb k k = true.
Proof.
  unfold id_eqb. now destruct (list_eq_dec N.eq_dec k k).
Qed.

Lemma id_eqb_neq (a b : jsstring) : a <> b -> id_eqb a b = false.
Proof.
  intro H. unfold id_eqb. now destruct (list_eq_dec N.eq_dec a b).
Qed.

Lemma mapShot_others (k : jsstring) (f : Shot -> Shot) (l : list Shot) :
  ~ In k (map id l) -> mapShot k f l = l.
Proof.
  induction l as [|s l IH]; intro Hk; [reflexivity|].
  cbn in *. rewrite id_eqb_neq by (intro E; apply Hk; now left).
  f_equal. apply IH. intro Hin. apply Hk. now right.
Qed.

(** With distinct ids an update by id rewrites one shot in place. *)
Lemma mapShot_unique (f : Shot -> Shot) (done rest : list Shot) (s : Shot) :
  NoDup (map id (done ++ s :: rest)) ->
  mapShot (id s) f (done ++ s :: rest) = done ++ f s :: rest.
Proof.
  intro Hnd. rewrite map_app in Hnd. cbn [map] in Hnd.
  pose proof (NoDup_remove_2 _ _ _ Hnd) as Hout.
  unfold mapShot. rewrite map_app. cbn [map]. rewrite id_eqb_refl.
  fold (mapShot (id s) f done). fold (mapShot (id s) f rest).
  rewrite !mapShot_others; [reflexivity| |];
    intro Hin; apply Hout, in_or_app; [now right|now left].
Qed.

Lemma shots_setShots (f : list Shot -> list Shot) (st : Store) :
  shots (setShots f st) = f (shots st).
Proof.
  unfold shots, setShots, readArray. cbn [heap shotsCell].
  now rewrite app_nth2, Nat.sub_diag by lia.
Qed.

Lemma settleFrom_length (gen : Generation) (l : list Shot) :
  forall i, length (settleFrom gen i l) = length l.
Proof.
  induction l as [|s l IH]; intro i; cbn; [reflexivity|]. now rewrite IH.
Qed.

Lemma settled_id (gen : Generation) (i : nat) (s : Shot) :
  id (settled gen i s) = id s.
Proof. unfold settled. now destruct (generated gen i). Qed.

(** The queue settles the shots one after the other, up to the first
    index at which generation was switched off. *)
Lemma processShotQueue_settles (gen : Generation) (queue : list Shot) :
  forall i done st k,
    shots st = done ++ queue ->
    NoDup (map id (done ++ queue)) ->
    (k <= length queue)%nat ->
    (forall j, (j < k)%nat -> generating gen (i + j) = true) ->
    (k = length queue \/ generating gen (i + k) = false) ->
    shots (processShotQueue gen i queue st)
    = done ++ settleFrom gen i (firstn k queue) ++ skipn k queue.
Proof.
  induction queue as [|shot rest IH]; intros i done st k Hst Hnd Hk Hgo Hend.
  - cbn in Hk. assert (k = 0%nat) by lia. subst k. cbn. now rewrite Hst.
  - cbn [processShotQueue]. destruct k as [|k].
    + destruct Hend as [Hend|Hend]; [discriminate Hend|].
      rewrite Nat.add_0_r in Hend. rewrite Hend. cbn. exact Hst.
    + assert (Hi : generating gen i = true).
      { rewrite <- (Nat.add_0_r i). apply Hgo. lia. }
      rewrite Hi. cbv zeta.
      set (st1 := setShots (mapShot (id shot) markLoading) st).
      assert (H1 : shots st1 = done ++ markLoading shot :: rest).
      { unfold st1. rewrite shots_setShots, Hst. now apply mapShot_unique. }
      assert (Hnd1 : NoDup (map id (done ++ markLoading shot :: rest))).
      { rewrite map_app in *. exact Hnd. }
      set (st2 := match generated gen i with
                  | Some imageUrl =>
                      setShots (mapShot (id shot) (setImage imageUrl)) st1
                  | None => setShots (mapShot (id shot) markError) st1
                  end).
      assert (H2 : shots st2 = (done ++ [settled gen i shot]) ++ rest).
      { unfold st2, settled. rewrite <- app_assoc. cbn [app].
        destruct (generated gen i) as [url|];
          rewrite shots_setShots, H1;
          change (id shot) with (id (markLoading shot));
          now rewrite mapShot_unique. }
      rewrite (IH (S i) (done ++ [settled gen i shot]) st2 k H2).
      * cbn [firstn skipn settleFrom]. now rewrite <- app_assoc.
      * rewrite <- app_assoc. cbn [app]. rewrite map_app in *. cbn [map] in *.
        now rewrite settled_id.
      * cbn in Hk. lia.
      * intros j Hj. replace (S i + j)%nat with (i + S j)%nat by lia.
        apply Hgo. lia.
      * destruct Hend as [Hend|Hend].
        -- left. cbn in Hend. lia.
        -- right. now replace (S i + k)%nat with (i + S k)%nat by lia.
Qed.

(** X17.  The image queue, started on shots with distinct ids and left
    alone by other updates, settles the shots in order up to the first
    index [k] at which generation had been switched off: each of the
    first [k] shots ends with [isLoading] false and either the
    generated URL or [isError] true, the others are as they were, and
    the list keeps its length and its ids. *)
Theorem queue_settles_shots (gen : Generation) (initialShots : list Shot)
        (st : Store) (k : nat)
        (Hnd : NoDup (map id initialShots))
        (Hk : (k <= length initialShots)%nat)
        (Hgo : forall j, (j < k)%nat -> generating gen j = true)
        (Hend : k = length initialShots \/ generating gen k = false) :
  let final := shots (startQueue gen initialShots st) in
  final = settleFrom gen 0 (firstn k initialShots) ++ skipn k initialShots
  /\ length final = length initialShots
  /\ map id final = map id initialShots
  /\ forall i s, (i < k)%nat -> nth_error final i = Some s ->
                 isLoading s = false
                 /\ (imageUrl s = generated gen i \/ isError s = true).
Proof.
  cbv zeta.
  assert (Hfinal : shots (startQueue gen initialShots st)
                   = settleFrom gen 0 (firstn k initialShots)
                       ++ skipn k initialShots).
  { unfold startQueue.
    rewrite (processShotQueue_settles gen initialShots 0 [] _ k);
      try assumption; [reflexivity|now rewrite shots_setShots]. }
  rewrite Hfinal. split; [reflexivity|].
  assert (Hids : forall l i, map id (settleFrom gen i l) = map id l).
  { induction l as [|s l IH]; intro i; cbn; [reflexivity|].
    now rewrite settled_id, IH. }
  assert (Hnth : forall l i j s,
             nth_error (settleFrom gen i l) j = Some s ->
             isLoading s = false
             /\ (imageUrl s = generated gen (i + j) \/ isError s = true)).
  { induction l as [|x l IH]; intros i j s Hs.
    - destruct j; discriminate Hs.
    - destruct j as [|j]; cbn in Hs.
      + injection Hs as <-. rewrite Nat.add_0_r. unfold settled.
        destruct (generated gen i); cbn; auto.
      + replace (i + S j)%nat with (S i + j)%nat by lia. now apply (IH (S i)). }
  split; [|split].
  - rewrite length_app, settleFrom_length, <- length_app.
    now rewrite firstn_skipn.
  - rewrite map_app, Hids, <- map_app. now rewrite firstn_skipn.
  - intros i s Hi Hs.
    rewrite nth_error_app1 in Hs
      by (rewrite settleFrom_length, length_firstn; lia).
    exact (Hnth _ 0%nat i s Hs).
Qed.

Lemma queue_settles_shots_witness :
  (NoDup (map id [Samples.shotA; Samples.shotB])
   /\ (1 <= length [Samples.shotA; Samples.shotB])%nat
   /\ (forall j, (j < 1)%nat -> (j <? 1)%nat = true)
   /\ (1%nat = length [Samples.shotA; Samples.shotB] \/ (1 <? 1)%nat = false))
  /\ shots (startQueue
              {| generated := fun _ => None; generating := fun i => (i <? 1)%nat |}
              [Samples.shotA; Samples.shotB] Samples.store0)
     = [markError Samples.shotA; Samples.shotB].
Proof.
  assert (Hnd : NoDup (map id [Samples.shotA; Samples.shotB])).
  { cbn. constructor; [|constructor; [|constructor]]; cbn;
      intuition discriminate. }
  assert (Hgo : forall j, (j < 1)%nat -> (j <? 1)%nat = true).
  { intros j Hj. now apply Nat.ltb_lt. }
  split.
  - repeat split; try assumption; [cbn; lia|now right].
  - pose proof (queue_settles_shots
                  {| generated := fun _ => None;
                     generating := fun i => (i <? 1)%nat |}
                  [Samples.shotA; Samples.shotB] Samples.store0 1%nat
                  Hnd (le_S _ _ (le_n 1)) Hgo (or_intror eq_refl)) as H.
    cbv zeta in H. exact (proj1 H).
Defined.

(* ------------------------------------------------------------------ *)
(** ** More on the playback clock *)

Import PlaybackRuns.

Section TimerFacts.

Variable len : Z.

(** A handler keeps the interval or clears it while switching playing
    off. *)
Lemma handler_interval_flags (a : action) (now : Z) (s : State) :
  interval (handler len a now s) = interval s
  \/ (interval (handler len a now s) = None
      /\ isPlaying (handler len a now s) = false).
Proof.
  destruct a; cbn [handler]; try (now left).
  - destruct (interval s) as [t|] eqn:Ht; [|now left].
    unfold tickBody.
    destruct (Qle_bool 100 _); [|now left].
    destruct (capIndex t <? capLength t - 1)%Z; cbn; [now left|now right].
  - unfold handleJump. destruct (isExporting s); now left.
  - unfold togglePlay. destruct (isExporting s); now left.
  - unfold handleNext, handleJump.
    destruct (currentIndex s <? len - 1)%Z; [|now left].
    destruct (isExporting s); now left.
  - unfold handlePrev, handleJump.
    destruct (currentIndex s >? 0)%Z; [|now left].
    destruct (isExporting s); now left.
  - unfold exportBegin. destruct (isExporting s); now left.
Qed.

(** No handler starts playing during an export. *)
Lemma handler_export_paused (a : action) (now : Z) (s : State) :
  (isExporting s = true -> isPlaying s = false) ->
  isExporting (handler len a now s) = true ->
  isPlaying (handler len a now s) = false.
Proof.
  intro Hs. destruct a; cbn [handler].
  - destruct (interval s) as [t|]; [|exact Hs].
    unfold tickBody.
    destruct (Qle_bool 100 _); [|exact Hs].
    destruct (capIndex t <? capLength t - 1)%Z; cbn; [exact Hs|reflexivity].
  - unfold handleJump. destruct (isExporting s) eqn:E; [intros _; now apply Hs|].
    cbn; try rewrite E; discriminate.
  - unfold togglePlay. destruct (isExporting s) eqn:E; [intros _; now apply Hs|].
    cbn; try rewrite E; discriminate.
  - unfold handleNext, handleJump.
    destruct (currentIndex s <? len - 1)%Z; [|exact Hs].
    destruct (isExporting s) eqn:E; [intros _; now apply Hs|]. cbn; try rewrite E; discriminate.
  - unfold handlePrev, handleJump.
    destruct (currentIndex s >? 0)%Z; [|exact Hs].
    destruct (isExporting s) eqn:E; [intros _; now apply Hs|]. cbn; try rewrite E; discriminate.
  - unfold exportBegin. destruct (isExporting s); [intros _; now apply Hs|reflexivity].
  - cbn. discriminate.
Qed.

(** A render keeps the invariant of the timer, whatever the length of
    the storyboard it is given. *)
Lemma rerender_timer_inv (newLen now : Z) (old new : State) :
  (isExporting new = true -> isPlaying new = false) ->
  (isPlaying new = isPlaying old -> isExporting new = isExporting old ->
   interval new <> None <-> isPlaying new && negb (isExporting new) = true) ->
  timer_inv (rerender len newLen now old new).
Proof.
  intros Hexp Harm. unfold rerender.
  destruct (depsChanged len newLen old new) eqn:Hd.
  - unfold effectBody, withInterval. cbn.
    destruct (isPlaying new && negb (isExporting new)) eqn:E;
      split; cbn; try assumption.
    + split; [intros _; exact E|discriminate].
    + split; [congruence|]. rewrite E. discriminate.
  - destruct (depsChanged_same _ _ _ _ Hd) as (Hp & _ & _ & He).
    split; [|assumption]. now apply Harm.
Qed.

Lemma step_timer_inv (a : action) (now : Z) (s : State) :
  timer_inv s -> timer_inv (step len a now s).
Proof.
  intros [Harm Hexp]. unfold step.
  apply rerender_timer_inv; [now apply handler_export_paused|].
  intros Hp He.
  destruct (handler_interval_flags a now s) as [Hi|[Hi Hoff]].
  - rewrite Hi, Hp, He. exact Harm.
  - rewrite Hi, Hoff. cbn. split; [congruence|discriminate].
Qed.

Lemma replace_timer_inv (newLen now : Z) (s : State) :
  timer_inv s -> timer_inv (replaceStoryboard len newLen now s).
Proof.
  intros [Harm Hexp]. unfold replaceStoryboard.
  apply rerender_timer_inv; [assumption|]. intros _ _. exact Harm.
Qed.

End TimerFacts.

Lemma reachable_timer_inv (len : Z) (s : State) :
  reachable len s -> timer_inv s.
Proof.
  induction 1 as [len now | len s a now _ IH _ | len newLen s now _ IH _].
  - unfold mount, effectBody. cbn. split; [|discriminate].
    split; [reflexivity|discriminate].
  - now apply step_timer_inv.
  - now apply replace_timer_inv.
Qed.

(** X18.  In every state the preview can reach, the interval is live
    exactly when the preview is playing and no export is in progress,
    and an export in progress means the preview is paused: no stray
    timer is left behind by pausing, finishing or exporting. *)
Theorem timer_live_iff_playing (len : Z) (s : State)
        (Hreach : reachable len s) :
  (interval s <> None <-> isPlaying s = true /\ isExporting s = false)
  /\ (isExporting s = true -> isPlaying s = false).
Proof.
  destruct (reachable_timer_inv len s Hreach) as [Harm Hexp].
  split; [|exact Hexp].
  rewrite Harm, andb_true_iff, negb_true_iff. reflexivity.
Qed.

Lemma timer_live_iff_playing_witness :
  reachable 3 (step 3 TogglePlay 700 (mount 3 0))
  /\ (isExporting (step 3 TogglePlay 700 (mount 3 0)) = true ->
      isPlaying (step 3 TogglePlay 700 (mount 3 0)) = false).
Proof.
  assert (Hreach : reachable 3 (step 3 TogglePlay 700 (mount 3 0))).
  { apply reach_step; [apply reach_mount | exact I]. }
  split; [exact Hreach|].
  exact (proj2 (timer_live_iff_playing 3 _ Hreach)).
Defined.

(** X19.  While an export is in progress the preview is frozen: ticks
    do not fire, and jumping, skipping and toggling play leave the
    state as it is; only the end of the export changes it. *)
Theorem preview_frozen_during_export (len : Z) (s : State) (a : action)
        (now : Z)
        (Hreach : reachable len s)
        (Hexp : isExporting s = true)
        (Ha : a <> ExportEnd) :
  step len a now s = s.
Proof.
  destruct (reachable_timer_inv len s Hreach) as [Harm Hpaused].
  assert (Hoff : interval s = None).
  { destruct (interval s) as [t|] eqn:Ht; [|reflexivity].
    assert (Hne : Some t <> None) by discriminate.
    apply Harm in Hne. rewrite Hexp, andb_false_r in Hne. discriminate. }
  assert (Hh : handler len a now s = s).
  { destruct a; cbn [handler].
    - now rewrite Hoff.
    - unfold handleJump. now rewrite Hexp.
    - unfold togglePlay. now rewrite Hexp.
    - unfold handleNext, handleJump. rewrite Hexp.
      now destruct (currentIndex s <? len - 1)%Z.
    - unfold handlePrev, handleJump. rewrite Hexp.
      now destruct (currentIndex s >? 0)%Z.
    - unfold exportBegin. now rewrite Hexp.
    - congruence. }
  unfold step. rewrite Hh. unfold rerender.
  now rewrite depsChanged_refl.
Qed.

Lemma preview_frozen_during_export_witness :
  (reachable 3 (step 3 ExportBegin 500 (mount 3 0))
   /\ isExporting (step 3 ExportBegin 500 (mount 3 0)) = true
   /\ Jump 2 <> ExportEnd)
  /\ step 3 (Jump 2) 900 (step 3 ExportBegin 500 (mount 3 0))
     = step 3 ExportBegin 500 (mount 3 0).
Proof.
  assert (Hreach : reachable 3 (step 3 ExportBegin 500 (mount 3 0))).
  { apply reach_step; [apply reach_mount | exact I]. }
  assert (Ha : Jump 2 <> ExportEnd) by discriminate.
  split; [repeat split; [exact Hreach|exact Ha]|].
  exact (preview_frozen_during_export 3 _ (Jump 2) 900 Hreach eq_refl Ha).
Defined.

(** Write the divisions by the two constants of the clock as
    multiplications. *)
Ltac clock_consts :=
  unfold newProgress, DURATION_PER_SHOT, Qdiv in *;
  change (/ 4000) with (1 # 4000) in *;
  change (/ 100) with (1 # 100) in *.

(** X20.  When a tick finds the progress at 100 or more and a shot
    remains, the preview moves to the next shot: the index grows by
    one, progress restarts at 0 from the time of the tick, playing
    continues, and the interval is re-armed for the new index. *)
Theorem tick_advances_shot (len : Z) (s : State) (now : Z)
        (Hlen : (1 <= len)%Z)
        (Hreach : reachable len s)
        (Harmed : interval s <> None)
        (Hmore : (currentIndex s < len - 1)%Z)
        (Hfull : 100 <= newProgress now s) :
  let s' := step len Tick now s in
  currentIndex s' = (currentIndex s + 1)%Z
  /\ progress s' = 0
  /\ isPlaying s' = true
  /\ startTime s' == inject_Z now
  /\ interval s' = Some {| capIndex := (currentIndex s + 1)%Z;
                           capLength := len |}.
Proof.
  pose proof (reachable_closure len s Hreach) as Hcap.
  destruct (reachable_timer_inv len s Hreach) as [Harm _].
  pose proof (proj1 Harm Harmed) as Hflags.
  apply andb_prop in Hflags. destruct Hflags as [Hplay Hnexp].
  destruct (interval s) as [t|] eqn:Ht; [clear Harmed|congruence].
  destruct (Hcap t Ht) as [Hci Hcl].
  assert (Hh : handler len Tick now s
               = {| currentIndex := (currentIndex s + 1)%Z;
                    isPlaying := isPlaying s; progress := 0;
                    isExporting := isExporting s;
                    startTime := inject_Z now; interval := interval s |}).
  { cbn [handler]. rewrite Ht. unfold tickBody.
    apply Qle_bool_iff in Hfull. unfold newProgress in Hfull. rewrite Hfull.
    replace (capIndex t <? capLength t - 1)%Z with true; [now rewrite Ht|].
    symmetry. apply Z.ltb_lt. lia. }
  cbv zeta. unfold step. rewrite Hh. unfold rerender, depsChanged.
  cbn [currentIndex isPlaying isExporting].
  replace (currentIndex s =? currentIndex s + 1)%Z with false
    by (symmetry; apply Z.eqb_neq; lia).
  rewrite orb_true_r. cbn [negb orb].
  unfold effectBody, withInterval. cbn. rewrite Hplay, Hnexp. cbn.
  repeat split. clock_consts. ring.
Qed.

Lemma tick_advances_shot_witness :
  ((1 <= 3)%Z
   /\ reachable 3 (mount 3 0)
   /\ interval (mount 3 0) <> None
   /\ (currentIndex (mount 3 0) < 3 - 1)%Z
   /\ 100 <= newProgress 4000 (mount 3 0))
  /\ currentIndex (step 3 Tick 4000 (mount 3 0)) = 1%Z.
Proof.
  assert (Hlen : (1 <= 3)%Z) by lia.
  assert (Harmed : interval (mount 3 0) <> None) by discriminate.
  assert (Hmore : (currentIndex (mount 3 0) < 3 - 1)%Z) by (cbn; lia).
  assert (Hfull : 100 <= newProgress 4000 (mount 3 0))
    by (vm_compute; discriminate).
  split; [repeat split; try assumption; apply reach_mount|].
  pose proof (tick_advances_shot 3 (mount 3 0) 4000 Hlen (reach_mount 3 0)
                Harmed Hmore Hfull) as H.
  cbv zeta in H. exact (proj1 H).
Defined.

(** X21.  Pausing keeps the progress, and resuming continues from it:
    after pause at [t1] and resume at [t2] the shot and its progress
    are unchanged, and the start time is moved so that a tick at the
    very moment of resuming would compute the same progress again. *)
Theorem pause_resume_keeps_progress (len : Z) (s : State) (t1 t2 : Z)
        (Hexp : isExporting s = false)
        (Hplay : isPlaying s = true)
        (Hp : progress s < 100) :
  let paused := step len TogglePlay t1 s in
  let resumed := step len TogglePlay t2 paused in
  (isPlaying paused = false /\ interval paused = None
   /\ progress paused = progress s /\ currentIndex paused = currentIndex s)
  /\ (isPlaying resumed = true /\ interval resumed <> None
      /\ progress resumed = progress s
      /\ currentIndex resumed = currentIndex s)
  /\ newProgress t2 resumed == progress s.
Proof.
  assert (Hnot : Qle_bool 100 (progress s) = false).
  { apply not_true_is_false. intro H. apply Qle_bool_iff in H.
    exact (Qlt_not_le _ _ Hp H). }
  destruct s as [idx play prog exporting st iv].
  cbn [isExporting isPlaying progress] in Hexp, Hplay, Hp, Hnot. subst.
  assert (Hpaused :
            step len TogglePlay t1
              {| currentIndex := idx; isPlaying := true; progress := prog;
                 isExporting := false; startTime := st; interval := iv |}
            = {| currentIndex := idx; isPlaying := false; progress := prog;
                 isExporting := false; startTime := st; interval := None |})
    by reflexivity.
  assert (Hresumed :
            step len TogglePlay t2
              {| currentIndex := idx; isPlaying := false; progress := prog;
                 isExporting := false; startTime := st; interval := None |}
            = {| currentIndex := idx; isPlaying := true; progress := prog;
                 isExporting := false;
                 startTime := inject_Z t2 - (prog / 100) * DURATION_PER_SHOT;
                 interval := Some {| capIndex := idx; capLength := len |} |}).
  { unfold step. cbn [handler]. unfold togglePlay.
    cbn [isExporting isPlaying progress negb andb]. rewrite Hnot.
    reflexivity. }
  cbv zeta. rewrite Hpaused, Hresumed.
  cbn [isExporting isPlaying progress currentIndex interval].
  split; [now repeat split|]. split; [repeat split; discriminate|].
  clock_consts. cbn [startTime]. field.
Qed.

Lemma pause_resume_keeps_progress_witness :
  (isExporting (step 3 Tick 1000 (mount 3 0)) = false
   /\ isPlaying (step 3 Tick 1000 (mount 3 0)) = true
   /\ progress (step 3 Tick 1000 (mount 3 0)) < 100)
  /\ newProgress 9000
       (step 3 TogglePlay 9000
          (step 3 TogglePlay 2000 (step 3 Tick 1000 (mount 3 0))))
     == progress (step 3 Tick 1000 (mount 3 0)).
Proof.
  assert (Hp : progress (step 3 Tick 1000 (mount 3 0)) < 100)
    by (vm_compute; reflexivity).
  split; [repeat split; exact Hp|].
  pose proof (pause_resume_keeps_progress
                3 (step 3 Tick 1000 (mount 3 0)) 2000 9000
                eq_refl eq_refl Hp) as H.
  cbv zeta in H. exact (proj2 (proj2 H)).
Defined.

(** X22.  Toggling play on a preview that stopped at the end of the
    last shot restarts it: first shot, progress 0 counted from the time
    of the click, playing, interval armed. *)
Theorem toggle_at_end_restarts (len : Z) (s : State) (now : Z)
        (Hexp : isExporting s = false)
        (Hpaused : isPlaying s = false)
        (Hfull : 100 <= progress s)
        (Hlast : currentIndex s = (len - 1)%Z) :
  let s' := step len TogglePlay now s in
  currentIndex s' = 0%Z
  /\ progress s' = 0
  /\ isPlaying s' = true
  /\ startTime s' == inject_Z now
  /\ interval s' = Some {| capIndex := 0; capLength := len |}.
Proof.
  apply Qle_bool_iff in Hfull.
  destruct s as [idx play prog exporting st iv].
  cbn [isExporting isPlaying progress currentIndex] in Hexp, Hpaused, Hfull, Hlast.
  subst.
  assert (Hstep :
            step len TogglePlay now
              {| currentIndex := len - 1; isPlaying := false; progress := prog;
                 isExporting := false; startTime := st; interval := iv |}
            = {| currentIndex := 0; isPlaying := true; progress := 0;
                 isExporting := false;
                 startTime := inject_Z now - (0 / 100) * DURATION_PER_SHOT;
                 interval := Some {| capIndex := 0; capLength := len |} |}).
  { unfold step. cbn [handler]. unfold togglePlay.
    cbn [isExporting isPlaying progress currentIndex negb andb].
    rewrite Hfull, Z.eqb_refl. reflexivity. }
  cbv zeta. rewrite Hstep.
  cbn [isExporting isPlaying progress currentIndex interval startTime].
  split; [reflexivity|]. split; [reflexivity|]. split; [reflexivity|].
  split; [|reflexivity].
  clock_consts. ring.
Qed.

Lemma toggle_at_end_restarts_witness :
  (isExporting (step 1 Tick 4000 (mount 1 0)) = false
   /\ isPlaying (step 1 Tick 4000 (mount 1 0)) = false
   /\ 100 <= progress (step 1 Tick 4000 (mount 1 0))
   /\ currentIndex (step 1 Tick 4000 (mount 1 0)) = (1 - 1)%Z)
  /\ isPlaying (step 1 TogglePlay 6000 (step 1 Tick 4000 (mount 1 0))) = true.
Proof.
  assert (Hfull : 100 <= progress (step 1 Tick 4000 (mount 1 0)))
    by (vm_compute; discriminate).
  split; [repeat split; exact Hfull|].
  pose proof (toggle_at_end_restarts
                1 (step 1 Tick 4000 (mount 1 0)) 6000
                eq_refl eq_refl Hfull eq_refl) as H.
  cbv zeta in H. exact (proj1 (proj2 (proj2 H))).
Defined.

Section ProgressFacts.

Variable len : Z.

Lemma rerender_progress_inv (newLen now : Z) (old new : State) :
  progress_inv now new ->
  progress_inv now (rerender len newLen now old new).
Proof.
  intro H. unfold rerender.
  destruct (depsChanged len newLen old new); [|assumption].
  unfold effectBody.
  destruct (isPlaying (withInterval None new)
            && negb (isExporting (withInterval None new))); [|exact H].
  destruct H as (Hst & H0 & H100). unfold progress_inv. cbn.
  split; [|now split]. clock_consts.
  revert H0. generalize (progress new), (inject_Z now). intros p x H0. lra.
Qed.

Lemma handler_progress_inv (a : action) (t now : Z) (s : State) :
  progress_inv t s -> (t <= now)%Z ->
  progress_inv now (handler len a now s).
Proof.
  intros (Hst & H0 & H100) Htime.
  assert (Hnow : startTime s <= inject_Z now).
  { apply Qle_trans with (inject_Z t); [assumption|]. now rewrite <- Zle_Qle. }
  assert (Hkeep : progress_inv now s) by now repeat split.
  assert (Hzero : forall i p e iv,
             progress_inv now
               {| currentIndex := i; isPlaying := p; progress := 0;
                  isExporting := e; startTime := inject_Z now;
                  interval := iv |}).
  { intros. unfold progress_inv. cbn.
    split; [apply Qle_refl|]. split; [apply Qle_refl|discriminate]. }
  destruct a; cbn [handler].
  - destruct (interval s) as [tm|]; [|exact Hkeep].
    unfold tickBody.
    destruct (Qle_bool 100 _) eqn:E.
    + destruct (capIndex tm <? capLength tm - 1)%Z; [apply Hzero|].
      unfold progress_inv. cbn.
      split; [exact Hnow|]. split; [discriminate|apply Qle_refl].
    + unfold progress_inv. cbn. split; [exact Hnow|].
      assert (Hlt : ~ 100 <= (inject_Z now - startTime s) / DURATION_PER_SHOT * 100).
      { intro H. apply Qle_bool_iff in H. congruence. }
      apply Qnot_le_lt in Hlt. clock_consts.
      revert Hnow Hlt. generalize (startTime s), (inject_Z now).
      intros x y Hnow Hlt. split; lra.
  - unfold handleJump. destruct (isExporting s); [exact Hkeep|apply Hzero].
  - unfold togglePlay. destruct (isExporting s); [exact Hkeep|].
    destruct (negb (isPlaying s) && Qle_bool 100 (progress s)
              && (currentIndex s =? len - 1)%Z); [apply Hzero|].
    now repeat split.
  - unfold handleNext, handleJump.
    destruct (currentIndex s <? len - 1)%Z; [|exact Hkeep].
    destruct (isExporting s); [exact Hkeep|apply Hzero].
  - unfold handlePrev, handleJump.
    destruct (currentIndex s >? 0)%Z; [|exact Hkeep].
    destruct (isExporting s); [exact Hkeep|apply Hzero].
  - unfold exportBegin. destruct (isExporting s); [exact Hkeep|].
    now repeat split.
  - now repeat split.
Qed.

End ProgressFacts.

(** X23.  As long as the clock read by the component never runs
    backwards, the progress of the current shot stays between 0 and 100
    in every state the preview reaches, and the recorded start of the
    shot is never in the future. *)
Theorem progress_is_a_percentage (len : Z) (t : Z) (s : State)
        (Hreach : reachable_at len t s) :
  0 <= progress s /\ progress s <= 100 /\ startTime s <= inject_Z t.
Proof.
  assert (Hinv : progress_inv t s).
  { induction Hreach as [len now | len t s a now _ IH _ Htime
                         | len newLen t s now _ IH _ Htime].
    - unfold mount, effectBody, progress_inv. cbn.
      split; [|split; [apply Qle_refl|discriminate]].
      clock_consts. generalize (inject_Z now). intro x. lra.
    - apply rerender_progress_inv.
      now apply (handler_progress_inv len a t now s).
    - apply rerender_progress_inv.
      destruct IH as (Hst & H0 & H100). split; [|now split].
      apply Qle_trans with (inject_Z t); [assumption|].
      now rewrite <- Zle_Qle. }
  destruct Hinv as (H1 & H2 & H3). now repeat split.
Qed.

Lemma progress_is_a_percentage_witness :
  reachable_at 3 1000 (step 3 Tick 1000 (mount 3 0))
  /\ progress (step 3 Tick 1000 (mount 3 0)) <= 100.
Proof.
  assert (Hreach : reachable_at 3 1000 (step 3 Tick 1000 (mount 3 0))).
  { apply (at_step 3 0 (mount 3 0) Tick 1000); [apply at_mount|exact I|lia]. }
  split; [exact Hreach|].
  exact (proj1 (proj2 (progress_is_a_percentage 3 1000 _ Hreach))).
Defined.

(** X24.  In every state the editor commits (the parent may have
    replaced the storyboard, also by a shorter one that still has the
    current shot), the global progress bar is never full: its width is
    at least 0 and strictly below 100 percent, also when the preview
    has stopped at the end of the last shot. *)
Theorem timeline_bar_below_full (len : Z) (s : State)
        (Hfit : committed len s) :
  0 <= Timeline.barWidth len s /\ Timeline.barWidth len s < 100.
Proof.
  destruct (committed_inv len s Hfit) as [[Hlo Hhi] _].
  unfold Timeline.barWidth.
  assert (Pl : 0 < inject_Z len) by (apply inject_Z_pos; lia).
  assert (H0 : 0 <= inject_Z (currentIndex s) / inject_Z len).
  { apply Qle_shift_div_l; [assumption|]. rewrite Qmult_0_l.
    change 0 with (inject_Z 0). now rewrite <- Zle_Qle. }
  assert (H1 : inject_Z (currentIndex s) / inject_Z len < 1).
  { apply Qlt_shift_div_r; [assumption|]. rewrite Qmult_1_l.
    rewrite <- Zlt_Qlt. lia. }
  revert H0 H1. generalize (inject_Z (currentIndex s) / inject_Z len).
  intros q H0 H1. split; lra.
Qed.

Lemma timeline_bar_below_full_witness :
  committed 3
    (step 3 Tick 4200
       (replaceStoryboard 5 3 300 (step 5 (Jump 2) 100 (mount 5 0))))
  /\ currentIndex
       (step 3 Tick 4200
          (replaceStoryboard 5 3 300 (step 5 (Jump 2) 100 (mount 5 0))))
     = 2%Z
  /\ 0 <= Timeline.barWidth 3
            (step 3 Tick 4200
               (replaceStoryboard 5 3 300 (step 5 (Jump 2) 100 (mount 5 0))))
  /\ Timeline.barWidth 3
       (step 3 Tick 4200
          (replaceStoryboard 5 3 300 (step 5 (Jump 2) 100 (mount 5 0))))
     < 100.
Proof.
  assert (Hfit : committed 3
                   (step 3 Tick 4200
                      (replaceStoryboard 5 3 300
                         (step 5 (Jump 2) 100 (mount 5 0))))).
  { apply commit_step; [|exact I].
    apply commit_replace; [|reflexivity].
    apply commit_step; [apply commit_mount; reflexivity | cbn; lia]. }
  split; [exact Hfit|]. split; [reflexivity|].
  exact (timeline_bar_below_full 3 _ Hfit).
Defined.
